(** * Roman WFI Pandeia notebook: the client-side sweeps

    A shallow embedding of the helper code of the Pandeia tutorial
    notebook: [compute_mag], [_mag2sn_], [_nexp2sn_], [compute_nexp] and
    the saturation back-off loop.

    The notebook's own code is glue around four external routines:
    Pandeia's [build_default_calc] and [perform_calculation], scipy's
    [minimize_scalar] and scipy's [interp1d].  They are not part of the
    notebook, so they are section variables here; the development proves
    what the notebook's code does with whatever they answer.

    Conventions.
    - Python floats (SNR, magnitudes, exposure times, optimizer abscissae)
      are rationals [Q]; only their order and the arithmetic the notebook
      itself performs matter.  NaN and infinities are outside the model
      (the difference the notebook takes is a finite double), and so is
      the rounding of a value to the nearest double; the overflow and
      the underflow of the one power the notebook computes are modelled
      ([float_pow2]).  The engine's scalars are Python floats.
    - Python exceptions are a [Raise] result; the state survives a raise,
      so the log of external evaluations is available for every execution.
    - The configuration dictionary [calc] is one mutable object shared by
      [compute_nexp] and [_nexp2sn_]; it is a cell of the state, and the
      [calc] argument of [_nexp2sn_] is that cell.
    - Magnitude brackets hold Python integers, as the default (18, 30)
      does, and [np.arange] turns them into [int64], [float64] or object
      entries ([arange]); exposure brackets are floats, as the minimizer
      takes them. *)

From Stdlib Require Import ZArith QArith Qabs Qround Lia Lqa.
From stdpp Require Import base option list strings gmap pretty.

Open Scope Z_scope.
Open Scope string_scope.
Open Scope list_scope.

(** ** Python values *)

Inductive exn : Type :=
| IndexError
| ValueError (msg : string)
| OverflowError (msg : string)
| EngineError (msg : string).

Inductive result (A : Type) : Type :=
| Ok (a : A)
| Raise (e : exn).
Arguments Ok {A} a.
Arguments Raise {A} e.

Definition result_bind {A B} (r : result A) (k : A -> result B) : result B :=
  match r with
  | Ok a => k a
  | Raise e => Raise e
  end.

(** [x > y] and [x < y] on floats. *)
Definition Qlt_bool (x y : Q) : bool := negb (Qle_bool y x).
Definition Qgt_bool (x y : Q) : bool := Qlt_bool y x.

(** [int(x)]: truncation towards zero. *)
Definition py_int (x : Q) : Z := Z.quot (Qnum x) (Z.pos (Qden x)).

(** [x ** 2] on a Python float: [OverflowError] when the square rounds
    beyond the largest double, [0.0] when it rounds to zero; in between
    the square, whose rounding to the nearest double is not modelled. *)
Definition square_overflows_from : Q := inject_Z (2 ^ 1024 - 2 ^ 970).
Definition square_vanishes_upto : Q := (1 # (2 ^ 1075))%Q.

Definition float_pow2 (d : Q) : result Q :=
  if Qle_bool square_overflows_from (d ^ 2) then
    Raise (OverflowError "(34, 'Numerical result out of range')")
  else if Qle_bool (d ^ 2) square_vanishes_upto then Ok 0%Q
  else Ok (d ^ 2)%Q.

(** The integer types numpy gives a Python integer. *)
Definition fits_int64 (z : Z) : bool :=
  (- 2 ^ 63 <=? z)%Z && (z <? 2 ^ 63)%Z.
Definition fits_uint64 (z : Z) : bool := (0 <=? z)%Z && (z <? 2 ^ 64)%Z.

(** The double nearest to an integer, ties to even: integers below
    [2 ^ 53] in absolute value are doubles; above, 53 significant bits
    are kept. *)
Definition round_float64 (z : Z) : Z :=
  let a := Z.abs z in
  if (a <? 2 ^ 53)%Z then z
  else
    let u := 2 ^ (Z.log2 a - 52) in
    let q := a / u in
    let r := a mod u in
    let q' := if (2 * r <? u)%Z then q
              else if (u <? 2 * r)%Z then q + 1
              else if Z.even q then q else q + 1 in
    Z.sgn z * (q' * u).

(** [np.arange(start, stop, 1)] on Python integers.  numpy picks the
    type from the arguments: [int64] when both fit; [float64] when one
    of them only fits [uint64]; Python objects beyond.  The [int64] and
    object arrays hold [start, start + 1, ...]; the [float64] array holds
    the doubles [v0 + i * (v1 - v0)], where [v0] and [v1] are the doubles
    nearest to [start] and [start + 1], all of them integers.  The array
    has [stop - start] entries, none when that is not positive.
    Allocation limits are not modelled. *)
Definition arange (start stop : Z) : list Z :=
  if fits_int64 start && fits_int64 stop then
    seqZ start (stop - start)
  else if (fits_int64 start || fits_uint64 start) &&
          (fits_int64 stop || fits_uint64 stop) then
    let v0 := round_float64 start in
    let v1 := round_float64 (start + 1) in
    (fun i => round_float64 (v0 + i * (v1 - v0))) <$> seqZ 0 (stop - start)
  else
    seqZ start (stop - start).

(** ** The Pandeia records the notebook reads and writes *)

Record Instrument : Type := {
  inst_filter : string;
  inst_detector : string
}.

Record Detector : Type := {
  nexp : Z;
  nresultants : Z;
  ma_table_name : string
}.

Record Configuration : Type := {
  instrument : Instrument;
  detector : Detector
}.

Record Normalization : Type := {
  norm_type : string;
  norm_flux : Q;
  norm_fluxunit : string;
  norm_waveunit : string;
  bandpass : string
}.

Record Sed : Type := {
  sed_type : string;
  key : string
}.

Record Spectrum : Type := {
  normalization : Normalization;
  sed : Sed
}.

Record Source : Type := {
  spectrum : Spectrum
}.

Record Calc : Type := {
  configuration : Configuration;
  scene : list Source
}.

Record Scalar : Type := {
  sn : Q;
  total_exposure_time : Q;
  sat_nresultants : Z
}.

Record Report : Type := {
  scalar : Scalar;
  warnings : gmap string string
}.

(** *** Field assignments *)

Definition with_detector (f : Detector -> Detector) (c : Calc) : Calc :=
  {| configuration :=
       {| instrument := instrument (configuration c);
          detector := f (detector (configuration c)) |};
     scene := scene c |}.

Definition with_instrument (f : Instrument -> Instrument) (c : Calc) : Calc :=
  {| configuration :=
       {| instrument := f (instrument (configuration c));
          detector := detector (configuration c) |};
     scene := scene c |}.

(** [calc['configuration']['detector']['nexp'] = n] *)
Definition set_nexp (n : Z) : Calc -> Calc :=
  with_detector (fun d =>
    {| nexp := n; nresultants := nresultants d;
       ma_table_name := ma_table_name d |}).

(** [calc['configuration']['detector']['nresultants'] = n] *)
Definition set_nresultants (n : Z) : Calc -> Calc :=
  with_detector (fun d =>
    {| nexp := nexp d; nresultants := n;
       ma_table_name := ma_table_name d |}).

(** [calc['configuration']['instrument']['filter'] = filt] *)
Definition set_filter (filt : string) : Calc -> Calc :=
  with_instrument (fun i =>
    {| inst_filter := filt; inst_detector := inst_detector i |}).

(** [calc['scene'][0]['spectrum']['normalization'][...] = ...]: the index
    [0] raises [IndexError] on an empty scene. *)
Definition with_normalization
    (f : Normalization -> Normalization) (c : Calc) : result Calc :=
  match scene c !! 0%nat with
  | None => Raise IndexError
  | Some s =>
      let s' := {| spectrum :=
                     {| normalization := f (normalization (spectrum s));
                        sed := sed (spectrum s) |} |} in
      Ok {| configuration := configuration c;
            scene := <[0%nat := s']> (scene c) |}
  end.

Definition set_norm_flux (mag : Q) : Calc -> result Calc :=
  with_normalization (fun n =>
    {| norm_type := norm_type n; norm_flux := mag;
       norm_fluxunit := norm_fluxunit n; norm_waveunit := norm_waveunit n;
       bandpass := bandpass n |}).

Definition set_norm_fluxunit (u : string) : Calc -> result Calc :=
  with_normalization (fun n =>
    {| norm_type := norm_type n; norm_flux := norm_flux n;
       norm_fluxunit := u; norm_waveunit := norm_waveunit n;
       bandpass := bandpass n |}).

Definition set_norm_waveunit (u : string) : Calc -> result Calc :=
  with_normalization (fun n =>
    {| norm_type := norm_type n; norm_flux := norm_flux n;
       norm_fluxunit := norm_fluxunit n; norm_waveunit := u;
       bandpass := bandpass n |}).

(** ** The notebook's state and its monad *)

(** [calc] is the configuration object the running code calls [calc]
    (the notebook's global in the back-off loop, the local of
    [compute_mag] and [compute_nexp] inside these functions);
    [nresultant] is the notebook variable the back-off loop assigns
    ([None] while unbound); [stdout] collects the printed lines; [evals]
    logs, oldest first, the configuration of every call of
    [perform_calculation]. *)
Record World : Type := {
  calc : Calc;
  nresultant : option Z;
  stdout : list string;
  evals : list Calc
}.

Definition M (A : Type) : Type := World -> result A * World.

#[global] Instance M_ret : MRet M := fun A a w => (Ok a, w).
#[global] Instance M_bind : MBind M := fun A B k m w =>
  match m w with
  | (Ok a, w') => k a w'
  | (Raise e, w') => (Raise e, w')
  end.

Definition raise {A} (e : exn) : M A := fun w => (Raise e, w).

Definition lift {A} (r : result A) : M A := fun w => (r, w).

Definition get_calc : M Calc := fun w => (Ok (calc w), w).

Definition put_calc (c : Calc) : M unit := fun w =>
  (Ok tt, {| calc := c; nresultant := nresultant w;
             stdout := stdout w; evals := evals w |}).

Definition assign_nresultant (n : Z) : M unit := fun w =>
  (Ok tt, {| calc := calc w; nresultant := Some n;
             stdout := stdout w; evals := evals w |}).

Definition print (line : string) : M unit := fun w =>
  (Ok tt, {| calc := calc w; nresultant := nresultant w;
             stdout := stdout w ++ [line]; evals := evals w |}).

Definition log_eval (c : Calc) : M unit := fun w =>
  (Ok tt, {| calc := calc w; nresultant := nresultant w;
             stdout := stdout w; evals := evals w ++ [c] |}).

(** In-place mutation of [calc]. *)
Definition mutate (f : Calc -> Calc) : M unit :=
  c ← get_calc; put_calc (f c).

Definition mutate_or_raise (f : Calc -> result Calc) : M unit :=
  c ← get_calc; c' ← lift (f c); put_calc c'.

(** ** What scipy's bounded minimizer may do

    [minimize_scalar] is a deterministic routine that probes the objective
    at points of its choosing, each choice depending on the values seen so
    far, and finally reports an abscissa [res['x']] or raises. *)
Inductive Minimizer : Type :=
| Converged (x : Q)
| Probe (x : Q) (k : Q -> Minimizer)
| Failed (e : exn).

(** Running a strategy against an objective that has effects. *)
Fixpoint minimize (m : Minimizer) (f : Q -> M Q) : M Q :=
  match m with
  | Converged x => mret x
  | Probe x k => fun w =>
      match f x w with
      | (Ok fx, w') => minimize (k fx) f w'
      | (Raise e, w') => (Raise e, w')
      end
  | Failed e => raise e
  end.

(** ** The notebook's code *)

Section Notebook.

(** The external collaborators. *)
Variable build_default_calc : string -> string -> string -> Calc.
Variable perform_calculation : Calc -> result Report.
(** [minimize_scalar(fun, bracket=, bounds=, method='bounded',
    options={'xatol': }]: the strategy scipy follows for these
    arguments; [fun] and [args] are supplied by [minimize]. *)
Variable minimize_scalar : Q * Q -> Q * Q -> Q -> Minimizer.
(** [interpolate.interp1d(x, y)] builds an interpolant or raises; the
    interpolant, called at a point, answers or raises. *)
Variable interp1d : list Q -> list Q -> result (Q -> result Q).

(** [perform_calculation(calc)] on the shared configuration object. *)
Definition perform : M Report :=
  c ← get_calc; log_eval c;; lift (perform_calculation c).

(** *** Limiting magnitude *)

(** The body of [for m in range(len(mag_range))]. *)
Fixpoint compute_mag_loop (mag_range : list Z) (computed_snrs : list Q)
    : M (list Q) :=
  match mag_range with
  | [] => mret computed_snrs
  | mag :: rest =>
      mutate_or_raise (set_norm_flux (inject_Z mag));;
      report ← perform;
      compute_mag_loop rest (computed_snrs ++ [sn (scalar report)])
  end.

(** [compute_mag(filt, nexp, bracket)]; the argument [nexp] is [n] here,
    [nexp] being the field. *)
Definition compute_mag (filt : string) (n : Z) (bracket : Z * Z)
    : M (list Z * list Q) :=
  put_calc (build_default_calc "roman" "wfi" "imaging");;
  mutate_or_raise (set_norm_fluxunit "abmag");;
  mutate_or_raise (set_norm_waveunit "um");;
  mutate (set_nexp n);;
  mutate (set_filter filt);;
  let mag_range := arange (fst bracket) (snd bracket + 1) in
  computed_snrs ← compute_mag_loop mag_range [];
  mret (mag_range, computed_snrs).

(** [_mag2sn_(mag_range, computed_snrs, sntarget)] *)
Definition _mag2sn_ (mag_range : list Z) (computed_snrs : list Q)
    (sntarget : Q) : result Q :=
  result_bind (interp1d computed_snrs (inject_Z <$> mag_range))
    (fun interpolator => interpolator sntarget).

(** *** Number of exposures *)

(** [_nexp2sn_(nexp, calc, sntarget)], the objective handed to the
    minimizer; [x] is the abscissa the minimizer probes. *)
Definition _nexp2sn_ (x : Q) (sntarget : Q) : M Q :=
  mutate (set_nexp (py_int x));;
  etc ← perform;
  lift (float_pow2 (sntarget - sn (scalar etc))).

(** [compute_nexp(filt, sn, mag, bracket, xtol)]; the argument [sn] is
    [sntarget] here, [sn] being the field of the report. *)
Definition compute_nexp (filt : string) (sntarget : Q) (mag : Q)
    (bracket : Q * Q) (xtol : Q) : M (Z * Report * Q) :=
  put_calc (build_default_calc "roman" "wfi" "imaging");;
  mutate_or_raise (set_norm_flux mag);;
  mutate_or_raise (set_norm_fluxunit "abmag");;
  mutate_or_raise (set_norm_waveunit "um");;
  mutate (set_filter filt);;
  mutate (set_nexp 1);;
  mutate (set_nresultants 8);;
  report ← perform;
  '(n, report) ←
    (if Qgt_bool (sn (scalar report)) sntarget then
       mret (1, report)
     else
       x ← minimize (minimize_scalar bracket bracket xtol)
             (fun x => _nexp2sn_ x sntarget);
       let n := py_int x in
       mutate (set_nexp n);;
       report ← perform;
       if Qlt_bool (sn (scalar report)) sntarget then
         mret (n + 1, report)
       else
         mret (n, report));
  let exptime := total_exposure_time (scalar report) in
  mret (n, report, exptime).

(** *** Saturation back-off *)

Definition saturation_message (n : Z) : string :=
  "No saturation happens with resultant " +:+ pretty n.

(** The body of the loop; the [break] is the branch that does not
    recurse. *)
Fixpoint backoff_loop (ns : list Z) : M unit :=
  match ns with
  | [] => mret tt
  | n :: rest =>
      let resultant := n + 1 in
      mutate (set_nresultants resultant);;
      report ← perform;
      let partial := warnings report !! "partial_saturated" in
      let full := warnings report !! "full_saturated" in
      if bool_decide (partial = None) && bool_decide (full = None) then
        assign_nresultant resultant;;
        print (saturation_message resultant)
      else
        backoff_loop rest
  end.

(** [for n in reversed(range(10)): ...] *)
Definition saturation_backoff : M unit :=
  backoff_loop (reverse (seqZ 0 10)).


(** *** Defaults of the keyword arguments *)

Definition default_mag_bracket : Z * Z := (18, 30).
Definition default_nexp_bracket : Q * Q := (1, 1000)%Q.
Definition default_xtol : Q := (1 # 10)%Q.

(** ** Vocabulary of the properties *)

Definition nexp_of (c : Calc) : Z := nexp (detector (configuration c)).
Definition nresultants_of (c : Calc) : Z :=
  nresultants (detector (configuration c)).

(** [c'] is [c] with, at most, another number of exposures. *)
Definition differs_in_nexp_only (c c' : Calc) : Prop :=
  c' = set_nexp (nexp_of c') c.

(** The abscissae a minimizer can report, over all objectives. *)
Inductive answers : Minimizer -> Q -> Prop :=
| answers_now (x : Q) : answers (Converged x) x
| answers_later (p : Q) (k : Q -> Minimizer) (fp x : Q) :
    answers (k fp) x -> answers (Probe p k) x.

(** scipy's contract for [method='bounded']: the reported abscissa lies
    within the bounds. *)
Definition within_bounds (bounds : Q * Q) (m : Minimizer) : Prop :=
  forall x, answers m x -> (fst bounds <= x)%Q /\ (x <= snd bounds)%Q.

(** A strategy that keeps every probe and its answer within the bounds
    and never raises, as scipy's bounded method does. *)
Inductive stays_within (bounds : Q * Q) : Minimizer -> Prop :=
| stays_within_answer (x : Q) :
    (fst bounds <= x)%Q -> (x <= snd bounds)%Q ->
    stays_within bounds (Converged x)
| stays_within_probe (p : Q) (k : Q -> Minimizer) :
    (fst bounds <= p)%Q -> (p <= snd bounds)%Q ->
    (forall fp, stays_within bounds (k fp)) ->
    stays_within bounds (Probe p k).

(** A deviation from the target this small in absolute value, [2 ^ 500],
    has a square far below the largest double. *)
Definition deviation_bound : Q := inject_Z (2 ^ 500).

(** The configuration [compute_nexp] has built when it calls the engine
    for the first time: the six assignments on the default
    calculation, one exposure, eight resultants. *)
Definition nexp_setup (filt : string) (mag : Q) : result Calc :=
  result_bind
    (set_norm_flux mag (build_default_calc "roman" "wfi" "imaging"))
    (fun c => result_bind (set_norm_fluxunit "abmag" c)
    (fun c => result_bind (set_norm_waveunit "um" c)
    (fun c => Ok (set_nresultants 8 (set_nexp 1 (set_filter filt c)))))).

(** The scoring function is monotonically increasing in the exposure
    count: whenever two evaluations of one configuration at counts
    [a <= b] succeed, the second SNR is at least the first. *)
Definition monotone_in_nexp : Prop :=
  forall (c : Calc) (a b : Z) (ra rb : Report),
    a <= b ->
    perform_calculation (set_nexp a c) = Ok ra ->
    perform_calculation (set_nexp b c) = Ok rb ->
    (sn (scalar ra) <= sn (scalar rb))%Q.

(** The configuration [compute_mag] has built when its sweep starts. *)
Definition mag_setup (filt : string) (n : Z) : result Calc :=
  result_bind
    (set_norm_fluxunit "abmag" (build_default_calc "roman" "wfi" "imaging"))
    (fun c => result_bind (set_norm_waveunit "um" c)
    (fun c => Ok (set_filter filt (set_nexp n c)))).

(** A configuration with its first source normalised to magnitude [m]. *)
Definition at_magnitude (c : Calc) (m : Z) : Calc :=
  match set_norm_flux (inject_Z m) c with
  | Ok c' => c'
  | Raise _ => c
  end.

(** The warnings the back-off loop looks for. *)
Definition saturated (r : Report) : Prop :=
  warnings r !! "partial_saturated" <> None \/
  warnings r !! "full_saturated" <> None.

Definition unsaturated (r : Report) : Prop :=
  warnings r !! "partial_saturated" = None /\
  warnings r !! "full_saturated" = None.

(** The resultant counts from 10 down to [k]. *)
Definition levels_down_to (k : Z) : list Z := reverse (seqZ k (11 - k)).

(** The target lies outside the range of the sampled abscissae. *)
Definition out_of_range (xs : list Q) (t : Q) : Prop :=
  (forall x, x ∈ xs -> (t < x)%Q) \/ (forall x, x ∈ xs -> (x < t)%Q).

(** scipy's default for [interp1d] ([bounds_error] unset, no
    [fill_value='extrapolate']): the interpolant raises [ValueError] at
    a point outside the range of [x]. *)
Definition raises_out_of_bounds : Prop :=
  forall (xs ys : list Q) (f : Q -> result Q) (t : Q),
    interp1d xs ys = Ok f -> out_of_range xs t ->
    exists msg, f t = Raise (ValueError msg).

(** The exceptions a minimizer can raise of its own, over all
    objectives. *)
Inductive fails_with : Minimizer -> exn -> Prop :=
| fails_with_now (e : exn) : fails_with (Failed e) e
| fails_with_later (p : Q) (k : Q -> Minimizer) (fp : Q) (e : exn) :
    fails_with (k fp) e -> fails_with (Probe p k) e.

(** A configuration asks for filter [filt] and for a first source of
    AB magnitude [mag], wavelengths in microns. *)
Definition observes (filt : string) (mag : Q) (c : Calc) : Prop :=
  inst_filter (instrument (configuration c)) = filt /\
  exists s,
    scene c !! 0%nat = Some s /\
    norm_flux (normalization (spectrum s)) = mag /\
    norm_fluxunit (normalization (spectrum s)) = "abmag" /\
    norm_waveunit (normalization (spectrum s)) = "um".

(** The notebook after the back-off loop has gone from level 10 down to
    level [k] without finding a clean level: nothing assigned, nothing
    printed, the configuration left at [k] resultants. *)
Definition scanned_down_to (w0 : World) (k : Z) : World :=
  {| calc := set_nresultants k (calc w0);
     nresultant := nresultant w0;
     stdout := stdout w0;
     evals := evals w0 ++
              ((fun j => set_nresultants j (calc w0)) <$> levels_down_to k) |}.

(** The notebook after the back-off loop has stopped at level [k]. *)
Definition stopped_at (w0 : World) (k : Z) : World :=
  {| calc := set_nresultants k (calc w0);
     nresultant := Some k;
     stdout := stdout w0 ++ [saturation_message k];
     evals := evals w0 ++
              ((fun j => set_nresultants j (calc w0)) <$> levels_down_to k) |}.

(** ** Stand-ins for the external routines

    Executable engines, a minimizer and an interpolator, to run the
    notebook's code on concrete inputs. *)

Definition toy_source : Source :=
  {| spectrum :=
       {| normalization :=
            {| norm_type := "at_lambda"; norm_flux := (1 # 1000)%Q;
               norm_fluxunit := "mjy"; norm_waveunit := "microns";
               bandpass := "" |};
          sed := {| sed_type := "flat"; key := "" |} |} |}.

Definition toy_default_calc (telescope inst mode : string) : Calc :=
  {| configuration :=
       {| instrument :=
            {| inst_filter := "f158"; inst_detector := "sca01" |};
          detector :=
            {| nexp := 1; nresultants := -1;
               ma_table_name := "c2a_img_hlwas" |} |};
     scene := [toy_source] |}.

(** An engine whose SNR depends on the exposure count alone, with 100
    seconds per exposure and no warning. *)
Definition toy_engine (snr : Z -> Q) (c : Calc) : result Report :=
  let n := nexp (detector (configuration c)) in
  Ok {| scalar := {| sn := snr n;
                     total_exposure_time := inject_Z (100 * n);
                     sat_nresultants := 10 |};
        warnings := ∅ |}.

(** An engine whose SNR falls with the magnitude of the source. *)
Definition mag_engine (c : Calc) : result Report :=
  match scene c !! 0%nat with
  | None => Raise (EngineError "empty scene")
  | Some s =>
      Ok {| scalar :=
              {| sn := (40 - norm_flux (normalization (spectrum s)))%Q;
                 total_exposure_time := 100%Q;
                 sat_nresultants := 10 |};
            warnings := ∅ |}
  end.

(** An engine that warns of partial saturation above [limit] resultants
    and of full saturation above [2 * limit]. *)
Definition saturating_engine (limit : Z) (c : Calc) : result Report :=
  let n := nresultants (detector (configuration c)) in
  let w1 : gmap string string :=
    if (limit <? n)%Z then {[ "partial_saturated" := "Partial saturation" ]}
    else ∅ in
  let w2 : gmap string string :=
    if (2 * limit <? n)%Z then <[ "full_saturated" := "Full saturation" ]> w1
    else w1 in
  Ok {| scalar := {| sn := 100%Q; total_exposure_time := inject_Z n;
                     sat_nresultants := limit |};
        warnings := w2 |}.

(** Ternary search: [rounds] rounds of two probes each, ties resolved
    to the right, answering the midpoint of the last interval. *)
Fixpoint trisect (rounds : nat) (a b : Q) : Minimizer :=
  match rounds with
  | O => Converged (Qred ((a + b) / 2))
  | S rounds' =>
      let c := Qred (a + (b - a) / 3) in
      let d := Qred (b - (b - a) / 3) in
      Probe c (fun fc => Probe d (fun fd =>
        if Qlt_bool fc fd then trisect rounds' a d
        else trisect rounds' c b))
  end.

Definition toy_minimize_scalar (rounds : nat) (bracket bounds : Q * Q)
    (xatol : Q) : Minimizer :=
  trisect rounds (fst bounds) (snd bounds).

Definition Qmin_list (x : Q) (xs : list Q) : Q :=
  fold_right (fun y m => if Qle_bool y m then y else m) x xs.

Definition Qmax_list (x : Q) (xs : list Q) : Q :=
  fold_right (fun y m => if Qle_bool m y then y else m) x xs.

(** Linear interpolation between the first two neighbouring samples
    that enclose [t]. *)
Fixpoint interpolate_between (pts : list (Q * Q)) (t : Q) : result Q :=
  match pts with
  | (x0, y0) :: (((x1, y1) :: _) as rest) =>
      if (Qle_bool x0 t && Qle_bool t x1) || (Qle_bool x1 t && Qle_bool t x0)
      then
        if Qeq_bool x0 x1 then Ok y0
        else Ok (Qred (y0 + (t - x0) * (y1 - y0) / (x1 - x0)))
      else interpolate_between rest t
  | [(x0, y0)] => if Qeq_bool x0 t then Ok y0 else Raise (ValueError "gap")
  | [] => Raise (ValueError "no samples")
  end.

(** An interpolator with scipy's default bounds check. *)
Definition toy_interp1d (xs ys : list Q) : result (Q -> result Q) :=
  if negb (length xs =? length ys)%nat then
    Raise (ValueError "x and y arrays must be equal in length")
  else
    match xs with
    | [] => Raise (ValueError "x and y arrays must have at least 1 entry")
    | x0 :: rest =>
        Ok (fun t =>
          if Qlt_bool t (Qmin_list x0 rest) then
            Raise (ValueError "A value in x_new is below the interpolation range")
          else if Qlt_bool (Qmax_list x0 rest) t then
            Raise (ValueError "A value in x_new is above the interpolation range")
          else interpolate_between (zip xs ys) t)
    end.

(** A notebook in which nothing has run yet. *)
Definition fresh_world (c : Calc) : World :=
  {| calc := c; nresultant := None; stdout := []; evals := [] |}.

Definition linear_snr (slope : Z) (n : Z) : Q := inject_Z (slope * n).
Definition constant_snr (v : Q) (n : Z) : Q := v.

(** A default calculation without any source. *)
Definition toy_empty_calc (telescope inst mode : string) : Calc :=
  {| configuration := configuration (toy_default_calc telescope inst mode);
     scene := [] |}.

(** [toy_engine], except that it raises at [bad] exposures. *)
Definition flaky_engine (bad : Z) (snr : Z -> Q) (c : Calc) : result Report :=
  if (nexp (detector (configuration c)) =? bad)%Z then
    Raise (EngineError "calculation failed")
  else toy_engine snr c.


(** [saturating_engine], except that it raises at [bad] resultants. *)
Definition flaky_saturating_engine (limit bad : Z) (c : Calc)
    : result Report :=
  if (nresultants (detector (configuration c)) =? bad)%Z then
    Raise (EngineError "calculation failed")
  else saturating_engine limit c.

(** ** Concrete inputs *)

Definition toy_world : World :=
  fresh_world (toy_default_calc "roman" "wfi" "imaging").

Definition toy_mag : Q := (2684 # 100)%Q.

(** ** Proof automation *)

Ltac run_monad :=
  cbv beta iota zeta delta
    [mbind M_bind mret M_ret raise lift get_calc put_calc
     assign_nresultant print log_eval mutate mutate_or_raise perform];
  cbn [calc nresultant stdout evals].

Ltac run_monad_in H :=
  cbv beta iota zeta delta
    [mbind M_bind mret M_ret raise lift get_calc put_calc
     assign_nresultant print log_eval mutate mutate_or_raise perform] in H;
  cbn [calc nresultant stdout evals] in H.



(** ** Facts on the Python values *)

Lemma Qlt_bool_iff (x y : Q) : Qlt_bool x y = true <-> (x < y)%Q.
Proof.
  unfold Qlt_bool. rewrite negb_true_iff.
  split.
  - intros H. apply Qnot_le_lt. intros Hle.
    apply Qle_bool_iff in Hle. congruence.
  - intros H. destruct (Qle_bool y x) eqn:E; [|reflexivity].
    apply Qle_bool_iff in E. exfalso. exact (Qlt_not_le _ _ H E).
Qed.

Lemma Qlt_bool_false (x y : Q) : Qlt_bool x y = false <-> (y <= x)%Q.
Proof.
  unfold Qlt_bool. rewrite negb_false_iff. apply Qle_bool_iff.
Qed.

(** On non-negative arguments [int] is the floor. *)
Lemma py_int_floor (x : Q) : (0 <= x)%Q -> py_int x = Qfloor x.
Proof.
  destruct x as [n d]. unfold Qle, py_int, Qfloor. simpl.
  intros H. apply Z.quot_div_nonneg; lia.
Qed.

Lemma py_int_lower (x : Q) (k : Z) :
  (0 <= k)%Z -> (inject_Z k <= x)%Q -> (k <= py_int x)%Z.
Proof.
  intros Hk Hx.
  assert (H0 : (0 <= x)%Q).
  { eapply Qle_trans; [|exact Hx]. unfold Qle. simpl. lia. }
  rewrite py_int_floor by exact H0.
  rewrite <- (Qfloor_Z k). apply Qfloor_resp_le. exact Hx.
Qed.

Lemma py_int_upper (x hi : Q) :
  (0 <= x)%Q -> (x <= hi)%Q -> (inject_Z (py_int x) <= hi)%Q.
Proof.
  intros H0 Hx. rewrite py_int_floor by exact H0.
  eapply Qle_trans; [apply Qfloor_le | exact Hx].
Qed.

(** ** Facts on the float power *)

Lemma float_pow2_nonneg (d v : Q) : float_pow2 d = Ok v -> (0 <= v)%Q.
Proof.
  unfold float_pow2.
  destruct (Qle_bool square_overflows_from (d ^ 2)); [discriminate|].
  destruct (Qle_bool (d ^ 2) square_vanishes_upto); intros [= <-].
  - apply Qle_refl.
  - change (d ^ 2)%Q with (d * d)%Q.
    destruct (Qlt_le_dec d 0) as [Hneg | Hpos].
    + assert (H : (0 <= (- d) * (- d))%Q) by (apply Qmult_le_0_compat; lra).
      assert (E : ((- d) * (- d) == d * d)%Q) by ring.
      rewrite E in H. exact H.
    + apply Qmult_le_0_compat; assumption.
Qed.

(** At the target itself the objective is [0.0]. *)
Lemma float_pow2_zero (d : Q) : (d == 0)%Q -> float_pow2 d = Ok 0%Q.
Proof.
  intros Hd. unfold float_pow2.
  assert (Hsq : (d ^ 2 == 0)%Q).
  { change (d ^ 2)%Q with (d * d)%Q. rewrite Hd. reflexivity. }
  destruct (Qle_bool square_overflows_from (d ^ 2)) eqn:Hover.
  - apply Qle_bool_iff in Hover. rewrite Hsq in Hover.
    exfalso. revert Hover. vm_compute. intros H. apply H. reflexivity.
  - destruct (Qle_bool (d ^ 2) square_vanishes_upto) eqn:Hunder;
      [reflexivity|].
    assert (H : (d ^ 2 <= square_vanishes_upto)%Q).
    { rewrite Hsq. vm_compute. discriminate. }
    apply Qle_bool_iff in H. congruence.
Qed.

(** A deviation within [deviation_bound] has a square that does not
    overflow. *)
Lemma float_pow2_bounded (d : Q) :
  (Qabs d <= deviation_bound)%Q -> exists v, float_pow2 d = Ok v.
Proof.
  intros Hd. unfold float_pow2.
  destruct (Qle_bool square_overflows_from (d ^ 2)) eqn:Hover.
  - exfalso. apply Qle_bool_iff in Hover.
    assert (Hsq : (d ^ 2 <= deviation_bound * deviation_bound)%Q).
    { change (d ^ 2)%Q with (d * d)%Q.
      eapply Qle_trans; [apply Qle_Qabs|].
      rewrite Qabs_Qmult.
      apply Qmult_le_compat_nonneg; split;
        first [apply Qabs_nonneg | exact Hd]. }
    assert (Hlt : (deviation_bound * deviation_bound
                   < square_overflows_from)%Q)
      by (vm_compute; reflexivity).
    apply (Qlt_irrefl square_overflows_from).
    eapply Qle_lt_trans; [exact Hover|].
    eapply Qle_lt_trans; [exact Hsq | exact Hlt].
  - destruct (Qle_bool (d ^ 2) square_vanishes_upto); eauto.
Qed.

(** ** Facts on the doubles nearest to integers and on [arange] *)

(** The significand and the unit of a large positive integer. *)
Lemma float64_binade (z : Z) :
  2 ^ 53 <= z ->
  let u := 2 ^ (Z.log2 z - 52) in
  0 < u /\ 2 ^ Z.log2 z = 2 ^ 52 * u /\ 2 ^ (Z.log2 z + 1) = 2 ^ 53 * u /\
  2 ^ 52 <= z / u < 2 ^ 53 /\
  z = u * (z / u) + z mod u /\ 0 <= z mod u < u.
Proof.
  intros Hz. cbv zeta.
  assert (Hpos : 0 < z) by (assert (0 < 2 ^ 53) by (apply Z.pow_pos_nonneg; lia); lia).
  assert (Hl : 53 <= Z.log2 z) by (apply Z.log2_le_pow2; [exact Hpos | exact Hz]).
  destruct (Z.log2_spec z Hpos) as [Hlo Hhi].
  set (l := Z.log2 z) in *. set (u := 2 ^ (l - 52)).
  assert (Hu : 0 < u) by (apply Z.pow_pos_nonneg; lia).
  assert (E52 : 2 ^ l = 2 ^ 52 * u).
  { unfold u. rewrite <- Z.pow_add_r by lia. f_equal. lia. }
  assert (E53 : 2 ^ (l + 1) = 2 ^ 53 * u).
  { unfold u. rewrite <- Z.pow_add_r by lia. f_equal. lia. }
  replace (Z.succ l) with (l + 1) in Hhi by lia.
  split; [exact Hu|]. split; [exact E52|]. split; [exact E53|].
  split.
  - split.
    + apply Z.div_le_lower_bound; [exact Hu|]. lia.
    + apply Z.div_lt_upper_bound; [exact Hu|]. lia.
  - split; [apply Z.div_mod; lia | apply Z.mod_pos_bound; exact Hu].
Qed.

Lemma round_float64_small (z : Z) : Z.abs z < 2 ^ 53 -> round_float64 z = z.
Proof.
  intros H. unfold round_float64.
  destruct (Z.ltb_spec (Z.abs z) (2 ^ 53)); [reflexivity | lia].
Qed.

Lemma round_float64_large (z : Z) :
  2 ^ 53 <= z ->
  2 ^ Z.log2 z <= round_float64 z <= 2 ^ (Z.log2 z + 1).
Proof.
  intros Hz.
  destruct (float64_binade z Hz) as (Hu & E52 & E53 & Hq & Hdiv & Hr).
  assert (Hpos : 0 < z) by (assert (0 < 2 ^ 53) by (apply Z.pow_pos_nonneg; lia); lia).
  unfold round_float64. rewrite (Z.abs_eq z) by lia.
  destruct (Z.ltb_spec z (2 ^ 53)); [lia|].
  rewrite (Z.sgn_pos z) by lia. rewrite E52, E53.
  set (u := 2 ^ (Z.log2 z - 52)) in *.
  set (q := z / u) in *. set (r := z mod u) in *.
  destruct (Z.ltb_spec (2 * r) u); [nia|].
  destruct (Z.ltb_spec u (2 * r)); [nia|].
  destruct (Z.even q); nia.
Qed.

Lemma round_float64_mono_nonneg (a b : Z) :
  0 <= a <= b -> round_float64 a <= round_float64 b.
Proof.
  intros [Ha Hab].
  destruct (Z.lt_ge_cases b (2 ^ 53)) as [Hb | Hb].
  { rewrite !round_float64_small by lia. exact Hab. }
  destruct (Z.lt_ge_cases a (2 ^ 53)) as [Ha' | Ha'].
  { rewrite (round_float64_small a) by lia.
    pose proof (round_float64_large b Hb) as [Hlo _].
    assert (2 ^ 53 <= 2 ^ Z.log2 b).
    { apply Z.pow_le_mono_r; [lia|]. apply Z.log2_le_pow2; lia. }
    lia. }
  assert (Hpa : 0 < a) by lia.
  pose proof (Z.log2_le_mono a b Hab) as Hlog.
  destruct (Z.eq_dec (Z.log2 a) (Z.log2 b)) as [El | Nl].
  2:{ pose proof (round_float64_large a Ha') as [_ Hhi].
      pose proof (round_float64_large b Hb) as [Hlo _].
      assert (2 ^ (Z.log2 a + 1) <= 2 ^ Z.log2 b).
      { apply Z.pow_le_mono_r; lia. }
      lia. }
  destruct (float64_binade a Ha') as (Hu & _ & _ & Hqa & Hda & Hra).
  destruct (float64_binade b Hb) as (_ & _ & _ & Hqb & Hdb & Hrb).
  unfold round_float64. rewrite (Z.abs_eq a), (Z.abs_eq b) by lia.
  destruct (Z.ltb_spec a (2 ^ 53)); [lia|].
  destruct (Z.ltb_spec b (2 ^ 53)); [lia|].
  rewrite (Z.sgn_pos a), (Z.sgn_pos b) by lia.
  rewrite <- El in *.
  set (u := 2 ^ (Z.log2 a - 52)) in *.
  assert (Hq : a / u <= b / u) by (apply Z.div_le_mono; lia).
  set (qa := a / u) in *. set (ra := a mod u) in *.
  set (qb := b / u) in *. set (rb := b mod u) in *.
  destruct (Z.eq_dec qa qb) as [Eq | Nq].
  - rewrite <- Eq in *.
    destruct (Z.ltb_spec (2 * ra) u); destruct (Z.ltb_spec (2 * rb) u);
      destruct (Z.ltb_spec u (2 * ra)); destruct (Z.ltb_spec u (2 * rb));
      destruct (Z.even qa); nia.
  - destruct (Z.ltb_spec (2 * ra) u); destruct (Z.ltb_spec (2 * rb) u);
      destruct (Z.ltb_spec u (2 * ra)); destruct (Z.ltb_spec u (2 * rb));
      destruct (Z.even qa); destruct (Z.even qb); nia.
Qed.

Lemma round_float64_opp (z : Z) : round_float64 (- z) = - round_float64 z.
Proof.
  unfold round_float64. rewrite Z.abs_opp, Z.sgn_opp.
  destruct (Z.abs z <? 2 ^ 53)%Z; [reflexivity | lia].
Qed.

Lemma round_float64_nonneg (z : Z) : 0 <= z -> 0 <= round_float64 z.
Proof.
  intros Hz. destruct (Z.lt_ge_cases z (2 ^ 53)) as [H | H].
  - rewrite round_float64_small by lia. exact Hz.
  - pose proof (round_float64_large z H) as [Hlo _].
    assert (0 < 2 ^ Z.log2 z) by (apply Z.pow_pos_nonneg; [lia | apply Z.log2_nonneg]).
    lia.
Qed.

Lemma round_float64_mono (a b : Z) : a <= b -> round_float64 a <= round_float64 b.
Proof.
  intros Hab.
  destruct (Z.le_gt_cases 0 a) as [Ha | Ha].
  - apply round_float64_mono_nonneg. lia.
  - destruct (Z.le_gt_cases b 0) as [Hb | Hb].
    + assert (H : round_float64 (- b) <= round_float64 (- a))
        by (apply round_float64_mono_nonneg; lia).
      rewrite !round_float64_opp in H. lia.
    + assert (H1 : 0 <= round_float64 (- a)) by (apply round_float64_nonneg; lia).
      assert (H2 : 0 <= round_float64 b) by (apply round_float64_nonneg; lia).
      rewrite round_float64_opp in H1. lia.
Qed.

(** An empty range has no entry, whatever its type. *)
Lemma arange_nil (start stop : Z) : stop <= start -> arange start stop = [].
Proof.
  intros H. unfold arange. rewrite !seqZ_nil by lia.
  destruct (_ && _); [reflexivity|]. destruct (_ && _); reflexivity.
Qed.


(** Whatever its type, a range is in non-decreasing order. *)
Lemma arange_sorted (start stop : Z) (i j : nat) (m m' : Z) :
  (i <= j)%nat ->
  arange start stop !! i = Some m -> arange start stop !! j = Some m' ->
  m <= m'.
Proof.
  intros Hij. unfold arange.
  assert (Hexact : seqZ start (stop - start) !! i = Some m ->
                   seqZ start (stop - start) !! j = Some m' -> m <= m').
  { intros Hi Hj. apply lookup_seqZ in Hi, Hj. lia. }
  destruct (_ && _); [exact Hexact|].
  destruct (_ && _); [|exact Hexact].
  cbv zeta. rewrite !list_lookup_fmap. intros Hi Hj.
  destruct (seqZ 0 (stop - start) !! i) as [a|] eqn:Ha; [|discriminate].
  destruct (seqZ 0 (stop - start) !! j) as [b|] eqn:Hb; [|discriminate].
  cbn in Hi, Hj. injection Hi as <-. injection Hj as <-.
  apply lookup_seqZ in Ha, Hb.
  apply round_float64_mono.
  assert (Hstep : round_float64 start <= round_float64 (start + 1))
    by (apply round_float64_mono; lia).
  nia.
Qed.

(** ** Facts on the configuration record *)

Lemma set_nexp_set_nexp (n k : Z) (c : Calc) :
  set_nexp n (set_nexp k c) = set_nexp n c.
Proof. reflexivity. Qed.

Lemma nexp_of_set_nexp (n : Z) (c : Calc) : nexp_of (set_nexp n c) = n.
Proof. reflexivity. Qed.

Lemma nresultants_of_set_nexp (n : Z) (c : Calc) :
  nresultants_of (set_nexp n c) = nresultants_of c.
Proof. reflexivity. Qed.

Lemma set_nexp_id (c : Calc) : set_nexp (nexp_of c) c = c.
Proof. destruct c as [[i [n r t]] s]. reflexivity. Qed.

Lemma differs_in_nexp_only_refl (c : Calc) : differs_in_nexp_only c c.
Proof. unfold differs_in_nexp_only. symmetry. apply set_nexp_id. Qed.

Lemma differs_in_nexp_only_set (n : Z) (c c' : Calc) :
  differs_in_nexp_only c c' -> differs_in_nexp_only c (set_nexp n c').
Proof.
  unfold differs_in_nexp_only. intros H.
  rewrite nexp_of_set_nexp. rewrite H. reflexivity.
Qed.

Lemma differs_in_nexp_only_nresultants (c c' : Calc) :
  differs_in_nexp_only c c' -> nresultants_of c' = nresultants_of c.
Proof. intros H. rewrite H. reflexivity. Qed.

Lemma differs_in_nexp_only_trans (a b c : Calc) :
  differs_in_nexp_only a b -> differs_in_nexp_only b c ->
  differs_in_nexp_only a c.
Proof.
  unfold differs_in_nexp_only. intros Hab Hbc.
  rewrite Hbc at 1. rewrite Hab. reflexivity.
Qed.

Lemma differs_in_nexp_only_sym (a b : Calc) :
  differs_in_nexp_only a b -> differs_in_nexp_only b a.
Proof.
  unfold differs_in_nexp_only. intros Hab.
  rewrite Hab. rewrite set_nexp_set_nexp. symmetry. apply set_nexp_id.
Qed.

(** ** Running the monad *)

(** A probe of the objective: one evaluation, at the truncated count,
    of the shared configuration. *)
Lemma nexp2sn_run (x t : Q) (w : World) :
  _nexp2sn_ x t w =
  let c := set_nexp (py_int x) (calc w) in
  let w' := {| calc := c; nresultant := nresultant w;
               stdout := stdout w; evals := evals w ++ [c] |} in
  (result_bind (perform_calculation c)
     (fun etc => float_pow2 (t - sn (scalar etc))),
   w').
Proof.
  unfold _nexp2sn_. run_monad.
  destruct (perform_calculation _) as [etc | e]; cbn [result_bind];
    [destruct (float_pow2 _)|]; reflexivity.
Qed.

(** The search only ever changes the number of exposures, logs one
    configuration per probe, and reports an abscissa of the strategy. *)
Lemma minimize_run (t : Q) (m : Minimizer) (w w' : World) (res : result Q) :
  minimize m (fun x => _nexp2sn_ x t) w = (res, w') ->
  differs_in_nexp_only (calc w) (calc w') /\
  nresultant w' = nresultant w /\
  stdout w' = stdout w /\
  (exists new, evals w' = evals w ++ new /\
               Forall (differs_in_nexp_only (calc w)) new) /\
  (forall x, res = Ok x -> answers m x).
Proof.
  revert w w' res.
  induction m as [x | p k IH | e]; intros w w' res Hrun.
  - cbn in Hrun. injection Hrun as <- <-.
    refine (conj _ (conj _ (conj _ (conj _ _)))).
    + apply differs_in_nexp_only_refl.
    + reflexivity.
    + reflexivity.
    + exists []. rewrite app_nil_r. split; [reflexivity | constructor].
    + intros y [= <-]. constructor.
  - cbn [minimize] in Hrun. rewrite nexp2sn_run in Hrun. cbn zeta in Hrun.
    assert (Hstep : differs_in_nexp_only (calc w)
                      (set_nexp (py_int p) (calc w))).
    { apply differs_in_nexp_only_set, differs_in_nexp_only_refl. }
    destruct (result_bind _ _) as [fp | e].
    + apply IH in Hrun. cbn [calc nresultant stdout evals] in Hrun.
      destruct Hrun as (Hc & Hn & Hs & (new & Hev & Hnew) & Hans).
      refine (conj _ (conj _ (conj _ (conj _ _)))).
      * eapply differs_in_nexp_only_trans; eassumption.
      * exact Hn.
      * exact Hs.
      * exists (set_nexp (py_int p) (calc w) :: new). split.
        -- rewrite Hev. rewrite <- app_assoc. reflexivity.
        -- constructor; [exact Hstep|].
           eapply Forall_impl; [exact Hnew|].
           intros c Hc'. eapply differs_in_nexp_only_trans; eassumption.
      * intros y Hy. econstructor. apply Hans. exact Hy.
    + injection Hrun as <- <-. cbn [calc nresultant stdout evals].
      refine (conj _ (conj _ (conj _ (conj _ _)))).
      * exact Hstep.
      * reflexivity.
      * reflexivity.
      * exists [set_nexp (py_int p) (calc w)]. split; [reflexivity|].
        constructor; [exact Hstep | constructor].
      * intros y Hy. discriminate.
  - cbn in Hrun. injection Hrun as <- <-.
    refine (conj _ (conj _ (conj _ (conj _ _)))).
    + apply differs_in_nexp_only_refl.
    + reflexivity.
    + reflexivity.
    + exists []. rewrite app_nil_r. split; [reflexivity | constructor].
    + intros y Hy. discriminate.
Qed.

(** ** [compute_nexp], statement by statement *)

Lemma compute_nexp_run (filt : string) (t mag : Q) (bracket : Q * Q)
    (xtol : Q) (w0 : World) :
  compute_nexp filt t mag bracket xtol w0 =
  match nexp_setup filt mag with
  | Raise e =>
      (Raise e,
       {| calc := build_default_calc "roman" "wfi" "imaging";
          nresultant := nresultant w0; stdout := stdout w0;
          evals := evals w0 |})
  | Ok base =>
      let wb := {| calc := base; nresultant := nresultant w0;
                   stdout := stdout w0; evals := evals w0 ++ [base] |} in
      match perform_calculation base with
      | Raise e => (Raise e, wb)
      | Ok r1 =>
          if Qgt_bool (sn (scalar r1)) t then
            (Ok (1, r1, total_exposure_time (scalar r1)), wb)
          else
            match minimize (minimize_scalar bracket bracket xtol)
                    (fun x => _nexp2sn_ x t) wb with
            | (Raise e, w2) => (Raise e, w2)
            | (Ok x, w2) =>
                let c := set_nexp (py_int x) (calc w2) in
                let w3 := {| calc := c; nresultant := nresultant w2;
                             stdout := stdout w2;
                             evals := evals w2 ++ [c] |} in
                match perform_calculation c with
                | Raise e => (Raise e, w3)
                | Ok r =>
                    if Qlt_bool (sn (scalar r)) t then
                      (Ok (py_int x + 1, r,
                           total_exposure_time (scalar r)), w3)
                    else
                      (Ok (py_int x, r,
                           total_exposure_time (scalar r)), w3)
                end
            end
      end
  end.
Proof.
  unfold compute_nexp, nexp_setup, set_norm_flux, set_norm_fluxunit,
    set_norm_waveunit, with_normalization.
  run_monad.
  destruct (scene (build_default_calc "roman" "wfi" "imaging"))
    as [|src rest] eqn:Hscene;
    cbn -[Qgt_bool Qlt_bool py_int minimize set_nexp].
  - reflexivity.
  - match goal with
    | |- context [perform_calculation ?c] =>
        destruct (perform_calculation c) as [r1 | e]
    end; [|reflexivity].
    destruct (Qgt_bool (sn (scalar r1)) t); [reflexivity|].
    match goal with
    | |- context [minimize ?m ?f ?w] =>
        destruct (minimize m f w) as [[x | e] w2]
    end; [|reflexivity].
    destruct (perform_calculation (set_nexp (py_int x) (calc w2)))
      as [r | e]; [|reflexivity].
    destruct (Qlt_bool (sn (scalar r)) t); reflexivity.
Qed.

Lemma nexp_setup_Ok (filt : string) (mag : Q) (base : Calc) :
  nexp_setup filt mag = Ok base ->
  nresultants_of base = 8 /\ nexp_of base = 1.
Proof.
  unfold nexp_setup, set_norm_flux, set_norm_fluxunit, set_norm_waveunit,
    with_normalization.
  destruct (scene (build_default_calc "roman" "wfi" "imaging"))
    as [|src rest]; cbn; [discriminate|].
  intros [= <-]. split; reflexivity.
Qed.

(** The answers of a strategy that stays within its bounds lie within
    them. *)
Lemma stays_within_answers (bounds : Q * Q) (m : Minimizer) (x : Q) :
  stays_within bounds m -> answers m x ->
  (fst bounds <= x)%Q /\ (x <= snd bounds)%Q.
Proof.
  intros Hm Hx. induction Hx as [x | p k fp x _ IH].
  - inversion Hm; subst. split; assumption.
  - inversion Hm; subst. apply IH. auto.
Qed.

(** A strategy that stays within its bounds ends with an answer when,
    at every abscissa within the bounds, the engine answers and the
    square of the deviation does not overflow. *)
Lemma minimize_within (t : Q) (bounds : Q * Q) (base : Calc)
    (m : Minimizer) :
  stays_within bounds m ->
  (forall x, (fst bounds <= x)%Q -> (x <= snd bounds)%Q ->
     exists r v,
       perform_calculation (set_nexp (py_int x) base) = Ok r /\
       float_pow2 (t - sn (scalar r)) = Ok v) ->
  forall w, differs_in_nexp_only base (calc w) ->
  exists x w', minimize m (fun x => _nexp2sn_ x t) w = (Ok x, w').
Proof.
  intros Hm Hprobe.
  induction Hm as [x Hlo Hhi | p k Hlo Hhi _ IH]; intros w Hdiff.
  - exists x, w. reflexivity.
  - cbn [minimize]. rewrite nexp2sn_run. cbn zeta.
    destruct (Hprobe p Hlo Hhi) as (r & v & Hr & Hv).
    assert (Hc : set_nexp (py_int p) (calc w) = set_nexp (py_int p) base)
      by (rewrite Hdiff; reflexivity).
    rewrite Hc, Hr. cbn [result_bind]. rewrite Hv.
    apply IH. cbn [calc].
    apply differs_in_nexp_only_set, differs_in_nexp_only_refl.
Qed.

(** X1. The short circuit: a first SNR strictly above the target returns
    one exposure, the record of that evaluation and its exposure time,
    after that single evaluation and without running the minimizer. *)
Lemma compute_nexp_short_circuit (filt : string) (t mag : Q)
    (bracket : Q * Q) (xtol : Q) (w0 : World) (base : Calc) (r1 : Report) :
  nexp_setup filt mag = Ok base ->
  perform_calculation base = Ok r1 ->
  (t < sn (scalar r1))%Q ->
  compute_nexp filt t mag bracket xtol w0 =
  (Ok (1, r1, total_exposure_time (scalar r1)),
   {| calc := base; nresultant := nresultant w0; stdout := stdout w0;
      evals := evals w0 ++ [base] |}).
Proof.
  intros Hbase Hr1 Hlt. rewrite compute_nexp_run, Hbase. cbn zeta.
  rewrite Hr1. unfold Qgt_bool.
  apply Qlt_bool_iff in Hlt. rewrite Hlt. reflexivity.
Qed.

(** X2. A first SNR that only equals the target does not take the short
    circuit: unless the call raises, the search runs and the
    configuration is evaluated again after the first evaluation. *)
Lemma compute_nexp_tie_searches (filt : string) (t mag : Q)
    (bracket : Q * Q) (xtol : Q) (w0 : World) (base : Calc) (r1 : Report)
    (res : result (Z * Report * Q)) (w1 : World) :
  nexp_setup filt mag = Ok base ->
  perform_calculation base = Ok r1 ->
  (sn (scalar r1) == t)%Q ->
  compute_nexp filt t mag bracket xtol w0 = (res, w1) ->
  (forall e, res <> Raise e) ->
  exists c new, evals w1 = evals w0 ++ base :: new ++ [c].
Proof.
  intros Hbase Hr1 Heq. rewrite compute_nexp_run, Hbase. cbn zeta.
  rewrite Hr1. unfold Qgt_bool.
  assert (Hnot : Qlt_bool t (sn (scalar r1)) = false).
  { apply Qlt_bool_false. rewrite Heq. apply Qle_refl. }
  rewrite Hnot.
  destruct (minimize _ _ _) as [[x | e] w2] eqn:Hmin.
  - apply minimize_run in Hmin. cbn [calc nresultant stdout evals] in Hmin.
    destruct Hmin as (_ & _ & _ & (new & Hev & _) & _).
    intros Hrun Hok.
    exists (set_nexp (py_int x) (calc w2)), new.
    destruct (perform_calculation (set_nexp (py_int x) (calc w2)))
      as [r | e].
    + destruct (Qlt_bool (sn (scalar r)) t);
        injection Hrun as <- <-; cbn [evals]; rewrite Hev;
        rewrite <- !app_assoc; reflexivity.
    + injection Hrun as <- <-. exfalso. exact (Hok e eq_refl).
  - intros [= <- <-] Hok. exfalso. exact (Hok e eq_refl).
Qed.

(** Every successful call falls in one of three cases. *)
Lemma compute_nexp_Ok (filt : string) (t mag : Q) (bracket : Q * Q)
    (xtol : Q) (w0 w1 : World) (n : Z) (r : Report) (exptime : Q) :
  compute_nexp filt t mag bracket xtol w0 = (Ok (n, r, exptime), w1) ->
  exists base r1,
    nexp_setup filt mag = Ok base /\
    perform_calculation base = Ok r1 /\
    differs_in_nexp_only base (calc w1) /\
    perform_calculation (calc w1) = Ok r /\
    exptime = total_exposure_time (scalar r) /\
    ((Qgt_bool (sn (scalar r1)) t = true /\
      n = 1 /\ r = r1 /\ calc w1 = base /\
      evals w1 = evals w0 ++ [base])
     \/
     (Qgt_bool (sn (scalar r1)) t = false /\
      exists x, answers (minimize_scalar bracket bracket xtol) x /\
        nexp_of (calc w1) = py_int x /\
        ((Qlt_bool (sn (scalar r)) t = false /\ n = py_int x) \/
         (Qlt_bool (sn (scalar r)) t = true /\ n = py_int x + 1)))).
Proof.
  rewrite compute_nexp_run.
  destruct (nexp_setup filt mag) as [base | e] eqn:Hbase; [|discriminate].
  cbn zeta.
  destruct (perform_calculation base) as [r1 | e] eqn:Hr1; [|discriminate].
  destruct (Qgt_bool (sn (scalar r1)) t) eqn:Hgt.
  - intros [= <- <- <- <-]. exists base, r1. cbn [calc evals].
    repeat (split; [first [reflexivity | assumption
                          | apply differs_in_nexp_only_refl]|]).
    left. repeat split; first [reflexivity | assumption].
  - destruct (minimize _ _ _) as [[x | e] w2] eqn:Hmin; [|discriminate].
    apply minimize_run in Hmin. cbn [calc nresultant stdout evals] in Hmin.
    destruct Hmin as (Hdiff & _ & _ & _ & Hans).
    destruct (perform_calculation (set_nexp (py_int x) (calc w2)))
      as [r' | e] eqn:Hr; [|discriminate].
    intros Hrun. exists base, r1.
    assert (Hw1 : calc w1 = set_nexp (py_int x) (calc w2) /\ r = r' /\
                  exptime = total_exposure_time (scalar r') /\
                  ((Qlt_bool (sn (scalar r')) t = false /\ n = py_int x) \/
                   (Qlt_bool (sn (scalar r')) t = true /\
                    n = py_int x + 1))).
    { revert Hrun.
      destruct (Qlt_bool (sn (scalar r')) t); intros [= <- <- <- <-];
        cbn [calc]; repeat split; auto. }
    destruct Hw1 as (Hc & -> & -> & Hn). rewrite Hc.
    repeat (split; [first [reflexivity | assumption]|]).
    split; [apply differs_in_nexp_only_set; exact Hdiff|].
    repeat (split; [first [reflexivity | assumption]|]).
    right. split; [exact Hgt|]. exists x.
    split; [apply Hans; reflexivity|]. split; [reflexivity | exact Hn].
Qed.

(** Every configuration [compute_nexp] hands to the engine is the one it
    has set up, with some number of exposures. *)
Lemma compute_nexp_trace (filt : string) (t mag : Q) (bracket : Q * Q)
    (xtol : Q) (w0 : World) :
  exists new,
    evals (snd (compute_nexp filt t mag bracket xtol w0)) = evals w0 ++ new /\
    (new = [] \/
     exists base,
       nexp_setup filt mag = Ok base /\
       Forall (differs_in_nexp_only base) new /\
       differs_in_nexp_only base
         (calc (snd (compute_nexp filt t mag bracket xtol w0)))).
Proof.
  rewrite compute_nexp_run.
  destruct (nexp_setup filt mag) as [base | e] eqn:Hbase.
  2:{ exists []. cbn. rewrite app_nil_r. auto. }
  cbn zeta.
  assert (Hone : Forall (differs_in_nexp_only base) [base]).
  { constructor; [apply differs_in_nexp_only_refl | constructor]. }
  destruct (perform_calculation base) as [r1 | e].
  2:{ exists [base]. cbn. split; [reflexivity|]. right. exists base.
      auto using differs_in_nexp_only_refl. }
  destruct (Qgt_bool (sn (scalar r1)) t).
  { exists [base]. cbn. split; [reflexivity|]. right. exists base.
    auto using differs_in_nexp_only_refl. }
  destruct (minimize _ _ _) as [res w2] eqn:Hmin.
  apply minimize_run in Hmin. cbn [calc nresultant stdout evals] in Hmin.
  destruct Hmin as (Hdiff & _ & _ & (new & Hev & Hnew) & _).
  destruct res as [x | e].
  - assert (Hlast : differs_in_nexp_only base
                      (set_nexp (py_int x) (calc w2))).
    { apply differs_in_nexp_only_set. exact Hdiff. }
    exists (base :: new ++ [set_nexp (py_int x) (calc w2)]).
    assert (Hall : Forall (differs_in_nexp_only base)
                     (base :: new ++ [set_nexp (py_int x) (calc w2)])).
    { constructor; [apply differs_in_nexp_only_refl|].
      apply Forall_app. split; [exact Hnew|].
      constructor; [exact Hlast | constructor]. }
    destruct (perform_calculation (set_nexp (py_int x) (calc w2)))
      as [r | e]; [destruct (Qlt_bool (sn (scalar r)) t)|];
      cbn [snd evals calc]; rewrite Hev; rewrite <- !app_assoc;
      (split; [reflexivity|]); right; exists base; auto.
  - exists (base :: new). cbn [snd evals calc]. rewrite Hev.
    rewrite <- app_assoc. split; [reflexivity|]. right. exists base.
    split; [reflexivity|]. split; [|exact Hdiff].
    constructor; [apply differs_in_nexp_only_refl | exact Hnew].
Qed.

(** X3. What a successful call returns: the exposure time is the field of
    the returned record, the record is the evaluation of the
    configuration as the call leaves it, and the returned count is the
    count of that configuration or one more. *)
Lemma compute_nexp_returned_record (filt : string) (t mag : Q)
    (bracket : Q * Q) (xtol : Q) (w0 w1 : World) (n : Z) (r : Report)
    (exptime : Q) :
  compute_nexp filt t mag bracket xtol w0 = (Ok (n, r, exptime), w1) ->
  exptime = total_exposure_time (scalar r) /\
  perform_calculation (calc w1) = Ok r /\
  (n = nexp_of (calc w1) \/ n = nexp_of (calc w1) + 1).
Proof.
  intros Hrun. apply compute_nexp_Ok in Hrun.
  destruct Hrun as (base & r1 & Hbase & _ & _ & Hr & He & Hcase).
  split; [exact He|]. split; [exact Hr|].
  destruct Hcase as [(_ & -> & _ & -> & _)
                    | (_ & x & _ & -> & [[_ ->] | [_ ->]])].
  - left. symmetry. apply (nexp_setup_Ok _ _ _ Hbase).
  - left. reflexivity.
  - right. reflexivity.
Qed.

(** ** The claims on [compute_nexp] *)

(** C9. In every execution of [compute_nexp], ended by a return or by
    an exception, each configuration handed to the engine has
    [nresultants = 8], any two of them differ in [nexp] only, and once
    an evaluation has taken place the configuration object itself still
    has [nresultants = 8]. *)
Theorem compute_nexp_nresultants_fixed (filt : string) (t mag : Q)
    (bracket : Q * Q) (xtol : Q) (w0 : World) :
  exists new,
    evals (snd (compute_nexp filt t mag bracket xtol w0)) = evals w0 ++ new /\
    Forall (fun c => nresultants_of c = 8) new /\
    (forall c c', c ∈ new -> c' ∈ new -> differs_in_nexp_only c c') /\
    (new <> [] ->
     nresultants_of
       (calc (snd (compute_nexp filt t mag bracket xtol w0))) = 8).
Proof.
  destruct (compute_nexp_trace filt t mag bracket xtol w0)
    as (new & Hev & Hnew).
  exists new. split; [exact Hev|].
  destruct Hnew as [-> | (base & Hbase & Hall & Hcalc)].
  - split; [constructor|]. split; [|congruence].
    intros c c' Hc. inversion Hc.
  - apply nexp_setup_Ok in Hbase. destruct Hbase as [H8 _].
    split; [|split].
    + eapply Forall_impl; [exact Hall|]. intros c Hc. cbn beta.
      rewrite (differs_in_nexp_only_nresultants _ _ Hc). exact H8.
    + intros c c' Hc Hc'. rewrite Forall_forall in Hall.
      eapply differs_in_nexp_only_trans.
      * apply differs_in_nexp_only_sym, Hall, Hc.
      * apply Hall, Hc'.
    + intros _. rewrite (differs_in_nexp_only_nresultants _ _ Hcalc).
      exact H8.
Qed.

(** C3. For a scoring function monotonically increasing in the exposure
    count, a successful [compute_nexp] returns the record of the last
    evaluation and either the returned count is the evaluated one and
    its SNR reaches the target, or the count is the evaluated one plus
    one, taken because that evaluation fell short; this incremented
    count is not evaluated, and by monotonicity its SNR, whenever the
    engine yields one, is at least the one that fell short. *)
Theorem compute_nexp_reaches_target (filt : string) (t mag : Q)
    (bracket : Q * Q) (xtol : Q) (w0 w1 : World) (n : Z) (r : Report)
    (exptime : Q) :
  monotone_in_nexp ->
  compute_nexp filt t mag bracket xtol w0 = (Ok (n, r, exptime), w1) ->
  (perform_calculation (set_nexp n (calc w1)) = Ok r /\
   (t <= sn (scalar r))%Q)
  \/
  (n = nexp_of (calc w1) + 1 /\
   perform_calculation (calc w1) = Ok r /\
   (sn (scalar r) < t)%Q /\
   forall r', perform_calculation (set_nexp n (calc w1)) = Ok r' ->
              (sn (scalar r) <= sn (scalar r'))%Q).
Proof.
  intros Hmono Hrun. apply compute_nexp_Ok in Hrun.
  destruct Hrun as (base & r1 & Hbase & Hr1 & Hdiff & Hr & -> & Hcase).
  destruct Hcase as [(Hgt & -> & -> & Hc & _)
                    | (_ & x & _ & Hx & [[Hge ->] | [Hlt ->]])].
  - left. rewrite Hc. apply nexp_setup_Ok in Hbase.
    destruct Hbase as [_ H1]. rewrite <- H1, set_nexp_id.
    split; [exact Hr1|].
    apply Qlt_bool_iff in Hgt. apply Qlt_le_weak. exact Hgt.
  - left. rewrite <- Hx, set_nexp_id. split; [exact Hr|].
    apply Qlt_bool_false. exact Hge.
  - right. rewrite Hx. split; [reflexivity|]. split; [exact Hr|].
    split; [apply Qlt_bool_iff; exact Hlt|].
    intros r' Hr'.
    apply (Hmono (calc w1) (py_int x) (py_int x + 1) r r'); [lia| |exact Hr'].
    rewrite <- Hx, set_nexp_id. exact Hr.
Qed.

Lemma differs_in_nexp_only_set_nexp (n : Z) (c c' : Calc) :
  differs_in_nexp_only c c' -> set_nexp n c' = set_nexp n c.
Proof. intros H. rewrite H. reflexivity. Qed.

Lemma inject_Z_succ (k : Z) : (inject_Z (k + 1) == inject_Z k + 1)%Q.
Proof. rewrite inject_Z_plus. reflexivity. Qed.

(** C10, amended. When the bounded minimizer keeps its answer within
    the bracket and the bracket starts at 1 or above, a successful
    [compute_nexp] returns a count of at least 1: exactly 1 from the
    short circuit, and in the search branch at most the upper end of
    the bracket plus one. *)
Theorem compute_nexp_count_bounds (filt : string) (t mag : Q)
    (bracket : Q * Q) (xtol : Q) (w0 w1 : World) (n : Z) (r : Report)
    (exptime : Q) :
  within_bounds bracket (minimize_scalar bracket bracket xtol) ->
  (1 <= fst bracket)%Q ->
  compute_nexp filt t mag bracket xtol w0 = (Ok (n, r, exptime), w1) ->
  exists base r1,
    nexp_setup filt mag = Ok base /\
    perform_calculation base = Ok r1 /\
    1 <= n /\
    if Qgt_bool (sn (scalar r1)) t then n = 1
    else (inject_Z n <= snd bracket + 1)%Q.
Proof.
  intros Hbounds Hlo Hrun. apply compute_nexp_Ok in Hrun.
  destruct Hrun as (base & r1 & Hbase & Hr1 & _ & _ & _ & Hcase).
  exists base, r1. split; [exact Hbase|]. split; [exact Hr1|].
  destruct Hcase as [(-> & -> & _) | (-> & x & Hans & _ & Hn)].
  - split; [lia | reflexivity].
  - destruct (Hbounds x Hans) as [Hxlo Hxhi].
    assert (H1x : (inject_Z 1 <= x)%Q).
    { eapply Qle_trans; [|exact Hxlo]. exact Hlo. }
    assert (H0x : (0 <= x)%Q).
    { eapply Qle_trans; [|exact H1x]. unfold Qle. simpl. lia. }
    pose proof (py_int_lower x 1 ltac:(lia) H1x) as Hge.
    pose proof (py_int_upper x (snd bracket) H0x Hxhi) as Hle.
    destruct Hn as [[_ ->] | [_ ->]].
    + split; [exact Hge|]. lra.
    + split; [lia|]. rewrite inject_Z_succ. lra.
Qed.

(** C5, amended. [compute_nexp] has no infeasibility check.  When the
    SNR at one exposure does not exceed the target, the target exceeds
    the SNR at every exposure count [int(x)] for [x] in the bracket
    (by no more than [deviation_bound], so that no square overflows),
    and the minimizer stays within the bracket, the call returns
    normally, and the count it returns is [int(x) + 1] for the answer
    [x] of the minimizer, itself within the bracket: one more than a
    count whose SNR is below the target. *)
Theorem compute_nexp_infeasible_target (filt : string) (t mag : Q)
    (bracket : Q * Q) (xtol : Q) (w0 : World) (base : Calc) :
  nexp_setup filt mag = Ok base ->
  (exists r1, perform_calculation base = Ok r1 /\
              (sn (scalar r1) <= t)%Q) ->
  (forall x, (fst bracket <= x)%Q -> (x <= snd bracket)%Q ->
     exists r,
       perform_calculation (set_nexp (py_int x) base) = Ok r /\
       (t - deviation_bound <= sn (scalar r))%Q /\
       (sn (scalar r) < t)%Q) ->
  stays_within bracket (minimize_scalar bracket bracket xtol) ->
  exists x r exptime w1,
    compute_nexp filt t mag bracket xtol w0 =
      (Ok (py_int x + 1, r, exptime), w1) /\
    answers (minimize_scalar bracket bracket xtol) x /\
    (fst bracket <= x)%Q /\ (x <= snd bracket)%Q.
Proof.
  intros Hbase (r1 & Hr1 & Hle) Hlow Hm.
  rewrite compute_nexp_run, Hbase. cbn zeta. rewrite Hr1.
  assert (Hgt : Qgt_bool (sn (scalar r1)) t = false)
    by (apply Qlt_bool_false; exact Hle).
  rewrite Hgt.
  set (wb := {| calc := base; nresultant := nresultant w0;
                stdout := stdout w0; evals := evals w0 ++ [base] |}).
  destruct (minimize_within t bracket base _ Hm) with (w := wb)
    as (x & w2 & Hmin).
  - intros y Hylo Hyhi. destruct (Hlow y Hylo Hyhi) as (r & Hr & Hdev & Hlt).
    destruct (float_pow2_bounded (t - sn (scalar r))) as [v Hv].
    + apply Qabs_Qle_condition. split; lra.
    + exists r, v. split; [exact Hr | exact Hv].
  - apply differs_in_nexp_only_refl.
  - rewrite Hmin.
    apply minimize_run in Hmin. cbn [calc nresultant stdout evals wb] in Hmin.
    destruct Hmin as (Hdiff & _ & _ & _ & Hans).
    specialize (Hans x eq_refl).
    destruct (stays_within_answers _ _ _ Hm Hans) as [Hxlo Hxhi].
    destruct (Hlow x Hxlo Hxhi) as (r & Hr & _ & Hlt).
    assert (Hc : set_nexp (py_int x) (calc w2) = set_nexp (py_int x) base)
      by (rewrite Hdiff; reflexivity).
    rewrite Hc, Hr.
    apply Qlt_bool_iff in Hlt. rewrite Hlt.
    eexists x, r, _, _. split; [reflexivity|]. split; [exact Hans|].
    split; assumption.
Qed.

(** ** The saturation back-off loop *)

Lemma saturated_test (r : Report) :
  saturated r ->
  bool_decide (warnings r !! "partial_saturated" = None) &&
  bool_decide (warnings r !! "full_saturated" = None) = false.
Proof.
  intros [H | H].
  - rewrite (bool_decide_eq_false_2 _ H). reflexivity.
  - rewrite (bool_decide_eq_false_2 _ H). apply andb_false_r.
Qed.

Lemma unsaturated_test (r : Report) :
  unsaturated r ->
  bool_decide (warnings r !! "partial_saturated" = None) &&
  bool_decide (warnings r !! "full_saturated" = None) = true.
Proof.
  intros [H1 H2].
  rewrite (bool_decide_eq_true_2 _ H1), (bool_decide_eq_true_2 _ H2).
  reflexivity.
Qed.

(** One turn of the loop: the assignment, the evaluation and the test. *)
Lemma backoff_loop_step (n : Z) (rest : list Z) (w : World) :
  backoff_loop (n :: rest) w =
  let c := set_nresultants (n + 1) (calc w) in
  let w' := {| calc := c; nresultant := nresultant w;
               stdout := stdout w; evals := evals w ++ [c] |} in
  match perform_calculation c with
  | Raise e => (Raise e, w')
  | Ok report =>
      if bool_decide (warnings report !! "partial_saturated" = None) &&
         bool_decide (warnings report !! "full_saturated" = None)
      then
        (Ok tt,
         {| calc := c; nresultant := Some (n + 1);
            stdout := stdout w ++ [saturation_message (n + 1)];
            evals := evals w ++ [c] |})
      else backoff_loop rest w'
  end.
Proof.
  cbn [backoff_loop]. run_monad.
  destruct (perform_calculation _) as [report | e]; [|reflexivity].
  destruct (_ && _); reflexivity.
Qed.

(** The loop walks past saturated levels and stops at the first clean
    one. *)
Lemma backoff_loop_stops (pre : list Z) (n : Z) (post : list Z)
    (w : World) (r : Report) :
  (forall m, m ∈ pre ->
     exists rm, perform_calculation (set_nresultants (m + 1) (calc w)) = Ok rm
                /\ saturated rm) ->
  perform_calculation (set_nresultants (n + 1) (calc w)) = Ok r ->
  unsaturated r ->
  backoff_loop (pre ++ n :: post) w =
  (Ok tt,
   {| calc := set_nresultants (n + 1) (calc w);
      nresultant := Some (n + 1);
      stdout := stdout w ++ [saturation_message (n + 1)];
      evals := evals w ++
               ((fun m => set_nresultants (m + 1) (calc w)) <$> pre ++ [n]) |}).
Proof.
  revert w. induction pre as [|m pre IH]; intros w Hpre Hn Hclean.
  - cbn [app]. rewrite backoff_loop_step. cbn zeta. rewrite Hn.
    rewrite (unsaturated_test r Hclean). reflexivity.
  - cbn [app]. rewrite backoff_loop_step. cbn zeta.
    destruct (Hpre m) as (rm & Hrm & Hsat); [left|].
    rewrite Hrm, (saturated_test rm Hsat).
    rewrite (IH _); cbn [calc nresultant stdout evals].
    + rewrite <- app_assoc. reflexivity.
    + intros m' Hm'. apply Hpre. right. exact Hm'.
    + exact Hn.
    + exact Hclean.
Qed.

(** The loop runs to its end when every level is saturated. *)
Lemma backoff_loop_exhausts (ns : list Z) (w : World) :
  (forall m, m ∈ ns ->
     exists rm, perform_calculation (set_nresultants (m + 1) (calc w)) = Ok rm
                /\ saturated rm) ->
  backoff_loop ns w =
  (Ok tt,
   {| calc := foldl (fun c m => set_nresultants (m + 1) c) (calc w) ns;
      nresultant := nresultant w;
      stdout := stdout w;
      evals := evals w ++
               ((fun m => set_nresultants (m + 1) (calc w)) <$> ns) |}).
Proof.
  revert w. induction ns as [|m ns IH]; intros w Hns.
  - cbn. rewrite app_nil_r. destruct w; reflexivity.
  - rewrite backoff_loop_step. cbn zeta.
    destruct (Hns m) as (rm & Hrm & Hsat); [left|].
    rewrite Hrm, (saturated_test rm Hsat).
    rewrite (IH _); cbn [calc nresultant stdout evals].
    + rewrite <- app_assoc. reflexivity.
    + intros m' Hm'. apply Hns. right. exact Hm'.
Qed.

Lemma level_cases (k : Z) :
  1 <= k <= 10 ->
  k = 1 \/ k = 2 \/ k = 3 \/ k = 4 \/ k = 5 \/
  k = 6 \/ k = 7 \/ k = 8 \/ k = 9 \/ k = 10.
Proof. lia. Qed.

(** [reversed(range(10))] visits the indices above [k - 1], then
    [k - 1], then those below. *)
Lemma scan_order_split (k : Z) :
  1 <= k <= 10 ->
  reverse (seqZ 0 10) =
  reverse (seqZ k (10 - k)) ++ (k - 1) :: reverse (seqZ 0 (k - 1)).
Proof.
  intros Hk.
  destruct (level_cases k Hk)
    as [-> | [-> | [-> | [-> | [-> | [-> | [-> | [-> | [-> | ->]]]]]]]]];
    reflexivity.
Qed.

Lemma levels_visited (k : Z) (c : Calc) :
  1 <= k <= 10 ->
  (fun m => set_nresultants (m + 1) c) <$>
    (reverse (seqZ k (10 - k)) ++ [k - 1]) =
  (fun j => set_nresultants j c) <$> levels_down_to k.
Proof.
  intros Hk.
  destruct (level_cases k Hk)
    as [-> | [-> | [-> | [-> | [-> | [-> | [-> | [-> | [-> | ->]]]]]]]]];
    reflexivity.
Qed.

(** C4. Whatever the detector response, monotone in the truncation or
    not: when [k], between 1 and 10, is the largest resultant count
    whose evaluation carries neither saturation warning, the back-off
    loop evaluates the levels 10, 9, ..., [k] in that order and no
    other, stops there, assigns [k] to [nresultant] and prints its
    message for [k]. *)
Theorem saturation_backoff_finds_largest (w0 : World) (k : Z) (r : Report) :
  1 <= k <= 10 ->
  perform_calculation (set_nresultants k (calc w0)) = Ok r ->
  unsaturated r ->
  (forall j, k < j <= 10 ->
     exists rj, perform_calculation (set_nresultants j (calc w0)) = Ok rj
                /\ saturated rj) ->
  saturation_backoff w0 =
  (Ok tt,
   {| calc := set_nresultants k (calc w0);
      nresultant := Some k;
      stdout := stdout w0 ++ [saturation_message k];
      evals := evals w0 ++
               ((fun j => set_nresultants j (calc w0)) <$> levels_down_to k) |}).
Proof.
  intros Hk Hr Hclean Habove.
  unfold saturation_backoff. rewrite (scan_order_split k Hk).
  rewrite (backoff_loop_stops _ (k - 1) _ w0 r).
  - rewrite (levels_visited k (calc w0) Hk).
    replace (k - 1 + 1) with k by lia. reflexivity.
  - intros m Hm. apply elem_of_reverse, elem_of_seqZ in Hm.
    apply Habove. lia.
  - replace (k - 1 + 1) with k by lia. exact Hr.
  - exact Hclean.
Qed.

(** C8. When every resultant count from 10 down to 1 is evaluated with
    a partial- or full-saturation warning, the loop visits all ten
    levels and ends without an exception, leaves [nresultant] as it
    was (unbound if it was unbound) and prints nothing. *)
Theorem saturation_backoff_silent (w0 : World) :
  (forall j, 1 <= j <= 10 ->
     exists rj, perform_calculation (set_nresultants j (calc w0)) = Ok rj
                /\ saturated rj) ->
  saturation_backoff w0 =
  (Ok tt,
   {| calc := set_nresultants 1 (calc w0);
      nresultant := nresultant w0;
      stdout := stdout w0;
      evals := evals w0 ++
               ((fun j => set_nresultants j (calc w0)) <$> levels_down_to 1) |}).
Proof.
  intros Hall. unfold saturation_backoff.
  rewrite backoff_loop_exhausts.
  - reflexivity.
  - intros m Hm. apply elem_of_reverse, elem_of_seqZ in Hm.
    apply Hall. lia.
Qed.

(** ** The magnitude sweep *)

Lemma set_norm_flux_again (q q' : Q) (c c' : Calc) :
  set_norm_flux q c = Ok c' -> set_norm_flux q' c' = set_norm_flux q' c.
Proof.
  unfold set_norm_flux, with_normalization.
  destruct (scene c) as [|s rest]; cbn; [discriminate|].
  intros [= <-]. reflexivity.
Qed.

Lemma mag_setup_at_magnitude (filt : string) (n : Z) (base : Calc) (m : Z) :
  mag_setup filt n = Ok base ->
  set_norm_flux (inject_Z m) base = Ok (at_magnitude base m).
Proof.
  unfold mag_setup, at_magnitude, set_norm_fluxunit, set_norm_waveunit,
    set_norm_flux, with_normalization.
  destruct (scene (build_default_calc "roman" "wfi" "imaging"))
    as [|s rest]; cbn; [discriminate|].
  intros [= <-]. reflexivity.
Qed.


Lemma compute_mag_run (filt : string) (n : Z) (bracket : Z * Z)
    (w0 : World) :
  compute_mag filt n bracket w0 =
  match mag_setup filt n with
  | Raise e =>
      (Raise e,
       {| calc := build_default_calc "roman" "wfi" "imaging";
          nresultant := nresultant w0; stdout := stdout w0;
          evals := evals w0 |})
  | Ok base =>
      let mag_range := arange (fst bracket) (snd bracket + 1) in
      match compute_mag_loop mag_range []
              {| calc := base; nresultant := nresultant w0;
                 stdout := stdout w0; evals := evals w0 |} with
      | (Ok computed_snrs, w1) => (Ok (mag_range, computed_snrs), w1)
      | (Raise e, w1) => (Raise e, w1)
      end
  end.
Proof.
  unfold compute_mag, mag_setup, set_norm_fluxunit, set_norm_waveunit,
    with_normalization.
  run_monad.
  destruct (scene (build_default_calc "roman" "wfi" "imaging"))
    as [|src rest] eqn:Hscene;
    cbn -[compute_mag_loop arange set_nexp set_filter].
  - reflexivity.
  - destruct (compute_mag_loop _ _ _) as [[snrs | e] w1]; reflexivity.
Qed.


(** What [compute_mag] leaves of the default calculation: the number of
    resultants is the default's; the number of exposures and the filter
    are those of the call. *)
Lemma mag_setup_at_magnitude_fields (filt : string) (n : Z) (base : Calc)
    (m : Z) :
  mag_setup filt n = Ok base ->
  observes filt (inject_Z m) (at_magnitude base m) /\
  nexp_of (at_magnitude base m) = n /\
  nresultants_of (at_magnitude base m) =
    nresultants_of (build_default_calc "roman" "wfi" "imaging").
Proof.
  unfold mag_setup, at_magnitude, set_norm_fluxunit, set_norm_waveunit,
    set_norm_flux, with_normalization.
  destruct (scene (build_default_calc "roman" "wfi" "imaging"))
    as [|src rest]; cbn; [discriminate|].
  intros [= <-]. cbn. split; [|split; reflexivity].
  split; [reflexivity|]. eexists. split; [reflexivity|]. repeat split.
Qed.


(** ** The interpolation *)

(** C7. With scipy's default bounds check, [_mag2sn_] called with a
    target outside the range of the sampled SNRs raises and returns no
    magnitude, whatever the samples; when the interpolant could be
    built, the exception is the [ValueError] of its bounds check. *)
Theorem mag2sn_out_of_domain (mag_range : list Z) (computed_snrs : list Q)
    (sntarget : Q) :
  raises_out_of_bounds ->
  out_of_range computed_snrs sntarget ->
  (exists e, _mag2sn_ mag_range computed_snrs sntarget = Raise e) /\
  (forall f, interp1d computed_snrs (inject_Z <$> mag_range) = Ok f ->
     exists msg,
       _mag2sn_ mag_range computed_snrs sntarget = Raise (ValueError msg)).
Proof.
  intros Hcontract Hout. unfold _mag2sn_.
  destruct (interp1d computed_snrs (inject_Z <$> mag_range))
    as [f | e] eqn:Hf; cbn [result_bind].
  - destruct (Hcontract _ _ f sntarget Hf Hout) as [msg Hmsg].
    split; [exists (ValueError msg); exact Hmsg|].
    intros f' [= <-]. exists msg. exact Hmsg.
  - split; [exists e; reflexivity|]. intros f' Hf'. discriminate.
Qed.


(** ** Further behaviour of [compute_nexp] *)

Lemma nexp_setup_Raise (filt : string) (mag : Q) (e : exn) :
  nexp_setup filt mag = Raise e ->
  e = IndexError /\ scene (build_default_calc "roman" "wfi" "imaging") = [].
Proof.
  unfold nexp_setup, set_norm_flux, set_norm_fluxunit, set_norm_waveunit,
    with_normalization.
  destruct (scene (build_default_calc "roman" "wfi" "imaging"))
    as [|src rest]; cbn.
  - intros [= <-]. split; reflexivity.
  - discriminate.
Qed.

Lemma nexp_setup_observes (filt : string) (mag : Q) (base : Calc) :
  nexp_setup filt mag = Ok base -> observes filt mag base.
Proof.
  unfold nexp_setup, set_norm_flux, set_norm_fluxunit, set_norm_waveunit,
    with_normalization.
  destruct (scene (build_default_calc "roman" "wfi" "imaging"))
    as [|src rest]; cbn; [discriminate|].
  intros [= <-]. split; [reflexivity|].
  eexists. split; [reflexivity|]. repeat split.
Qed.

Lemma observes_differs_in_nexp_only (filt : string) (mag : Q) (c c' : Calc) :
  observes filt mag c -> differs_in_nexp_only c c' -> observes filt mag c'.
Proof. intros Hobs ->. exact Hobs. Qed.

(** A search that raises either raises what the strategy itself raises,
    or stops at the evaluation it has just logged: the engine raised
    there, or the square of the deviation overflowed. *)
Lemma minimize_raises (t : Q) (m : Minimizer) (w w' : World) (e : exn) :
  minimize m (fun x => _nexp2sn_ x t) w = (Raise e, w') ->
  fails_with m e \/
  exists new c,
    evals w' = evals w ++ new ++ [c] /\
    (perform_calculation c = Raise e \/
     exists r, perform_calculation c = Ok r /\
               float_pow2 (t - sn (scalar r)) = Raise e).
Proof.
  revert w w'. induction m as [x | p k IH | e']; intros w w' Hrun.
  - discriminate.
  - cbn [minimize] in Hrun. rewrite nexp2sn_run in Hrun. cbn zeta in Hrun.
    destruct (perform_calculation (set_nexp (py_int p) (calc w)))
      as [etc | e'] eqn:Hpc; cbn [result_bind] in Hrun.
    + destruct (float_pow2 (t - sn (scalar etc))) as [fp | e'] eqn:Hfp.
      * apply IH in Hrun. cbn [evals] in Hrun.
        destruct Hrun as [Hf | (new & c & Hev & Hc)].
        -- left. econstructor. exact Hf.
        -- right. exists (set_nexp (py_int p) (calc w) :: new), c.
           split; [|exact Hc]. rewrite Hev, <- !app_assoc. reflexivity.
      * injection Hrun as <- <-. right.
        exists [], (set_nexp (py_int p) (calc w)). split; [reflexivity|].
        right. exists etc. split; [exact Hpc | exact Hfp].
    + injection Hrun as <- <-. right.
      exists [], (set_nexp (py_int p) (calc w)). split; [reflexivity|].
      left. exact Hpc.
  - cbn in Hrun. injection Hrun as <- <-. left. constructor.
Qed.

(** X4. On a default calculation without any source, [compute_nexp]
    raises [IndexError] at its first assignment into [scene[0]], before
    any evaluation. *)
Theorem compute_nexp_empty_scene (filt : string) (t mag : Q)
    (bracket : Q * Q) (xtol : Q) (w0 : World) :
  scene (build_default_calc "roman" "wfi" "imaging") = [] ->
  compute_nexp filt t mag bracket xtol w0 =
  (Raise IndexError,
   {| calc := build_default_calc "roman" "wfi" "imaging";
      nresultant := nresultant w0; stdout := stdout w0;
      evals := evals w0 |}).
Proof.
  intros Hscene. rewrite compute_nexp_run.
  unfold nexp_setup, set_norm_flux, with_normalization.
  rewrite Hscene. reflexivity.
Qed.

(** X5. What [compute_nexp] can raise.  When it raises, either the
    default calculation has no source and the exception is the
    [IndexError] of [scene[0]], raised before any evaluation; or the call
    stops at the last evaluation it made, with the exception the engine
    raised there or with the one the squaring of that evaluation's
    deviation raised in the objective ([OverflowError]); or the
    exception is one the minimizer itself raises. *)
Theorem compute_nexp_raise_causes (filt : string) (t mag : Q)
    (bracket : Q * Q) (xtol : Q) (w0 w1 : World) (e : exn) :
  compute_nexp filt t mag bracket xtol w0 = (Raise e, w1) ->
  (e = IndexError /\
   scene (build_default_calc "roman" "wfi" "imaging") = [] /\
   evals w1 = evals w0)
  \/
  (exists new c,
     evals w1 = evals w0 ++ new ++ [c] /\
     (perform_calculation c = Raise e \/
      exists r, perform_calculation c = Ok r /\
                float_pow2 (t - sn (scalar r)) = Raise e))
  \/
  fails_with (minimize_scalar bracket bracket xtol) e.
Proof.
  rewrite compute_nexp_run.
  destruct (nexp_setup filt mag) as [base | e0] eqn:Hbase.
  2:{ intros [= <- <-]. left. apply nexp_setup_Raise in Hbase.
      destruct Hbase as [-> Hscene]. repeat split; assumption. }
  cbn zeta.
  destruct (perform_calculation base) as [r1 | e1] eqn:Hr1.
  2:{ intros [= <- <-]. right. left. exists [], base. cbn [evals app].
      split; [reflexivity | left; exact Hr1]. }
  destruct (Qgt_bool (sn (scalar r1)) t); [discriminate|].
  destruct (minimize _ _ _) as [[x | e2] w2] eqn:Hmin.
  - pose proof (minimize_run _ _ _ _ _ Hmin) as Hinv.
    cbn [calc nresultant stdout evals] in Hinv.
    destruct Hinv as (_ & _ & _ & (new & Hev & _) & _).
    destruct (perform_calculation (set_nexp (py_int x) (calc w2)))
      as [r | e3] eqn:Hr.
    + destruct (Qlt_bool (sn (scalar r)) t); discriminate.
    + intros [= <- <-]. right. left.
      exists (base :: new), (set_nexp (py_int x) (calc w2)).
      cbn [evals]. split; [|left; exact Hr].
      rewrite Hev, <- !app_assoc. reflexivity.
  - intros [= <- <-]. apply minimize_raises in Hmin. cbn [evals] in Hmin.
    destruct Hmin as [Hf | (new & c & Hev & Hc)].
    + right. right. exact Hf.
    + right. left. exists (base :: new), c. split; [|exact Hc].
      rewrite Hev, <- !app_assoc. reflexivity.
Qed.

(** X6. In every execution of [compute_nexp], each configuration handed
    to the engine asks for the filter and the magnitude of the call, in
    AB magnitudes and microns. *)
Theorem compute_nexp_evaluates_request (filt : string) (t mag : Q)
    (bracket : Q * Q) (xtol : Q) (w0 : World) :
  exists new,
    evals (snd (compute_nexp filt t mag bracket xtol w0)) = evals w0 ++ new /\
    Forall (observes filt mag) new.
Proof.
  destruct (compute_nexp_trace filt t mag bracket xtol w0)
    as (new & Hev & Hnew).
  exists new. split; [exact Hev|].
  destruct Hnew as [-> | (base & Hbase & Hall & _)]; [constructor|].
  eapply Forall_impl; [exact Hall|]. intros c Hc.
  eapply observes_differs_in_nexp_only; [|exact Hc].
  apply nexp_setup_observes. exact Hbase.
Qed.

(** X7. [compute_nexp] returns when the default calculation has a
    source, the engine answers at one exposure and at every exposure
    count [int(x)] for [x] in the bracket, there with an SNR within
    [deviation_bound] of the target, so that no square overflows, and
    the minimizer stays within the bracket. *)
Theorem compute_nexp_succeeds (filt : string) (t mag : Q)
    (bracket : Q * Q) (xtol : Q) (w0 : World) (base : Calc) :
  nexp_setup filt mag = Ok base ->
  (exists r1, perform_calculation base = Ok r1) ->
  (forall x, (fst bracket <= x)%Q -> (x <= snd bracket)%Q ->
     exists r,
       perform_calculation (set_nexp (py_int x) base) = Ok r /\
       (Qabs (t - sn (scalar r)) <= deviation_bound)%Q) ->
  stays_within bracket (minimize_scalar bracket bracket xtol) ->
  exists n r exptime w1,
    compute_nexp filt t mag bracket xtol w0 = (Ok (n, r, exptime), w1).
Proof.
  intros Hbase (r1 & Hr1) Hin Hm. rewrite compute_nexp_run, Hbase.
  cbn zeta. rewrite Hr1.
  destruct (Qgt_bool (sn (scalar r1)) t); [eauto|].
  set (wb := {| calc := base; nresultant := nresultant w0;
                stdout := stdout w0; evals := evals w0 ++ [base] |}).
  destruct (minimize_within t bracket base _ Hm) with (w := wb)
    as (x & w2 & Hmin).
  - intros y Hylo Hyhi. destruct (Hin y Hylo Hyhi) as (r & Hr & Hdev).
    destruct (float_pow2_bounded _ Hdev) as [v Hv]. eauto.
  - apply differs_in_nexp_only_refl.
  - rewrite Hmin. apply minimize_run in Hmin.
    cbn [calc nresultant stdout evals wb] in Hmin.
    destruct Hmin as (Hdiff & _ & _ & _ & Hans).
    destruct (stays_within_answers _ _ _ Hm (Hans x eq_refl)) as [Hxlo Hxhi].
    destruct (Hin x Hxlo Hxhi) as (r & Hr & _).
    assert (Hc : set_nexp (py_int x) (calc w2) = set_nexp (py_int x) base)
      by (rewrite Hdiff; reflexivity).
    rewrite Hc, Hr.
    destruct (Qlt_bool (sn (scalar r)) t); eauto.
Qed.

(** [compute_nexp] prints nothing and does not touch the notebook's
    [nresultant], in any execution. *)
Lemma compute_nexp_silent (filt : string) (t mag : Q)
    (bracket : Q * Q) (xtol : Q) (w0 : World) :
  stdout (snd (compute_nexp filt t mag bracket xtol w0)) = stdout w0 /\
  nresultant (snd (compute_nexp filt t mag bracket xtol w0)) = nresultant w0.
Proof.
  rewrite compute_nexp_run.
  destruct (nexp_setup filt mag) as [base | e]; [|split; reflexivity].
  cbn zeta.
  destruct (perform_calculation base) as [r1 | e]; [|split; reflexivity].
  destruct (Qgt_bool (sn (scalar r1)) t); [split; reflexivity|].
  destruct (minimize _ _ _) as [res w2] eqn:Hmin.
  apply minimize_run in Hmin. cbn [calc nresultant stdout evals] in Hmin.
  destruct Hmin as (_ & Hn & Hs & _ & _).
  destruct res as [x | e]; [|split; assumption].
  destruct (perform_calculation (set_nexp (py_int x) (calc w2))) as [r | e];
    [destruct (Qlt_bool (sn (scalar r)) t)|]; split; assumption.
Qed.

(** ** The objective of the search *)

(** X9. A successful probe of the objective at [x] evaluates the shared
    configuration once, at [int(x)] exposures, and leaves it there; the
    value is never negative, and it is zero when the SNR of that
    evaluation equals the target. *)
Theorem nexp2sn_objective (x t v : Q) (w w' : World) :
  _nexp2sn_ x t w = (Ok v, w') ->
  exists etc,
    perform_calculation (set_nexp (py_int x) (calc w)) = Ok etc /\
    calc w' = set_nexp (py_int x) (calc w) /\
    evals w' = evals w ++ [set_nexp (py_int x) (calc w)] /\
    (0 <= v)%Q /\
    ((sn (scalar etc) == t)%Q -> v = 0%Q).
Proof.
  rewrite nexp2sn_run. cbn zeta.
  destruct (perform_calculation (set_nexp (py_int x) (calc w)))
    as [etc | e]; cbn [result_bind]; [|discriminate].
  intros [= Hv <-]. exists etc. cbn [calc evals].
  split; [reflexivity|]. split; [reflexivity|]. split; [reflexivity|].
  split; [eapply float_pow2_nonneg; exact Hv|].
  intros Heq. rewrite float_pow2_zero in Hv by lra. congruence.
Qed.

(** X10. The objective is piecewise constant: two abscissae with the same
    integer part give the same value, the same exception and the same
    state. *)
Theorem nexp2sn_piecewise_constant (x y t : Q) (w : World) :
  py_int x = py_int y -> _nexp2sn_ x t w = _nexp2sn_ y t w.
Proof. intros H. rewrite !nexp2sn_run, H. reflexivity. Qed.

(** ** Further behaviour of [compute_mag] *)

(** The loop of [compute_mag] in any execution: it evaluates a prefix of
    the magnitudes, in order, prints nothing, and when it ends normally
    it has appended one SNR per magnitude. *)
Lemma compute_mag_loop_trace (base : Calc) (mags : list Z) :
  forall (acc : list Q) (w w' : World) (res : result (list Q)),
    (forall m, set_norm_flux (inject_Z m) (calc w) =
               Ok (at_magnitude base m)) ->
    compute_mag_loop mags acc w = (res, w') ->
    nresultant w' = nresultant w /\
    stdout w' = stdout w /\
    (exists k, evals w' = evals w ++ (at_magnitude base <$> take k mags)) /\
    (forall out, res = Ok out ->
       exists snrs,
         out = acc ++ snrs /\
         Forall2 (fun m s =>
                    exists r, perform_calculation (at_magnitude base m) = Ok r
                              /\ s = sn (scalar r)) mags snrs).
Proof.
  induction mags as [|m mags IH]; intros acc w w' res Hcalc Hrun.
  - cbn in Hrun. injection Hrun as <- <-.
    split; [reflexivity|]. split; [reflexivity|]. split.
    + exists 0%nat. cbn. rewrite app_nil_r. reflexivity.
    + intros out [= <-]. exists []. rewrite app_nil_r.
      split; [reflexivity | constructor].
  - cbn [compute_mag_loop] in Hrun. run_monad_in Hrun.
    rewrite (Hcalc m) in Hrun. cbn [calc nresultant stdout evals] in Hrun.
    destruct (perform_calculation (at_magnitude base m)) as [r | e] eqn:Hr.
    + apply IH in Hrun.
      2:{ intros m'. cbn [calc]. rewrite <- (Hcalc m').
          eapply set_norm_flux_again. apply Hcalc. }
      cbn [calc nresultant stdout evals] in Hrun.
      destruct Hrun as (Hn & Hs & (k & Hev) & Hout).
      split; [exact Hn|]. split; [exact Hs|]. split.
      * exists (S k). rewrite Hev. cbn [take fmap list_fmap].
        rewrite <- app_assoc. reflexivity.
      * intros out Hres. destruct (Hout out Hres) as (snrs & -> & Hpairs).
        exists (sn (scalar r) :: snrs). split.
        -- rewrite <- app_assoc. reflexivity.
        -- constructor; [|exact Hpairs]. exists r. split; [exact Hr | reflexivity].
    + injection Hrun as <- <-. cbn [calc nresultant stdout evals].
      split; [reflexivity|]. split; [reflexivity|]. split.
      * exists 1%nat. reflexivity.
      * intros out Hres. discriminate.
Qed.


(** [compute_mag] in any execution that gets past its set-up. *)
Lemma compute_mag_trace (filt : string) (n : Z) (bracket : Z * Z)
    (w0 : World) (base : Calc) :
  mag_setup filt n = Ok base ->
  nresultant (snd (compute_mag filt n bracket w0)) = nresultant w0 /\
  stdout (snd (compute_mag filt n bracket w0)) = stdout w0 /\
  (exists k,
     evals (snd (compute_mag filt n bracket w0)) =
     evals w0 ++
       (at_magnitude base <$> take k (arange (fst bracket) (snd bracket + 1)))) /\
  (forall mags snrs,
     fst (compute_mag filt n bracket w0) = Ok (mags, snrs) ->
     mags = arange (fst bracket) (snd bracket + 1) /\
     Forall2 (fun m s =>
                exists r, perform_calculation (at_magnitude base m) = Ok r
                          /\ s = sn (scalar r)) mags snrs).
Proof.
  intros Hbase. rewrite compute_mag_run, Hbase. cbn zeta.
  destruct (compute_mag_loop _ _ _) as [res w1] eqn:Hloop.
  apply (compute_mag_loop_trace base) in Hloop.
  2:{ intros m. cbn [calc]. eapply mag_setup_at_magnitude. exact Hbase. }
  cbn [calc nresultant stdout evals] in Hloop.
  destruct Hloop as (Hn & Hs & Hev & Hout).
  destruct res as [out | e]; cbn [fst snd].
  - split; [exact Hn|]. split; [exact Hs|]. split; [exact Hev|].
    intros mags snrs [= <- <-]. split; [reflexivity|].
    destruct (Hout out eq_refl) as (snrs & -> & Hpairs). exact Hpairs.
  - split; [exact Hn|]. split; [exact Hs|]. split; [exact Hev|].
    intros mags snrs Hres. discriminate.
Qed.

(** X11. On a bracket whose upper end is below its lower end,
    [compute_mag] returns two empty sequences without calling the
    engine. *)
Theorem compute_mag_empty_bracket (filt : string) (n lo hi : Z)
    (w0 : World) (base : Calc) :
  hi < lo ->
  mag_setup filt n = Ok base ->
  compute_mag filt n (lo, hi) w0 =
  (Ok ([], []),
   {| calc := base; nresultant := nresultant w0; stdout := stdout w0;
      evals := evals w0 |}).
Proof.
  intros Hlt Hbase. rewrite compute_mag_run, Hbase. cbn zeta.
  cbn [fst snd]. rewrite arange_nil by lia. reflexivity.
Qed.


(** X13. In every execution of [compute_mag], on any bracket, each
    configuration handed to the engine asks for the filter of the call
    and for some AB magnitude in microns, has the number of exposures of
    the call, and keeps the number of resultants of the default
    calculation: unlike [compute_nexp], the sweep does not truncate to 8
    resultants. *)
Theorem compute_mag_keeps_truncation (filt : string) (n : Z)
    (bracket : Z * Z) (w0 : World) :
  exists new,
    evals (snd (compute_mag filt n bracket w0)) = evals w0 ++ new /\
    Forall (fun c =>
              (exists mag, observes filt mag c) /\
              nexp_of c = n /\
              nresultants_of c =
                nresultants_of (build_default_calc "roman" "wfi" "imaging"))
      new.
Proof.
  destruct (mag_setup filt n) as [base | e] eqn:Hbase.
  - destruct (compute_mag_trace filt n bracket w0 base Hbase)
      as (_ & _ & (k & Hev) & _).
    eexists. split; [exact Hev|].
    apply Forall_fmap, Forall_forall. intros m _. cbn beta.
    destruct (mag_setup_at_magnitude_fields filt n base m Hbase)
      as (Hobs & Hn & Hres).
    split; [|split; assumption].
    exists (inject_Z m). exact Hobs.
  - exists []. rewrite compute_mag_run, Hbase. cbn. rewrite app_nil_r.
    split; [reflexivity | constructor].
Qed.

(** X14. On a default calculation without any source, [compute_mag]
    raises [IndexError] at its first assignment into [scene[0]], before
    any evaluation. *)
Theorem compute_mag_empty_scene (filt : string) (n : Z) (bracket : Z * Z)
    (w0 : World) :
  scene (build_default_calc "roman" "wfi" "imaging") = [] ->
  compute_mag filt n bracket w0 =
  (Raise IndexError,
   {| calc := build_default_calc "roman" "wfi" "imaging";
      nresultant := nresultant w0; stdout := stdout w0;
      evals := evals w0 |}).
Proof.
  intros Hscene. rewrite compute_mag_run.
  unfold mag_setup, set_norm_fluxunit, with_normalization.
  rewrite Hscene. reflexivity.
Qed.

(** X15. When the engine's SNR does not rise with the magnitude, the SNRs
    [compute_mag] returns are in non-increasing order, the order the
    interpolation of [_mag2sn_] relies on. *)
Theorem compute_mag_snrs_sorted (filt : string) (n : Z) (bracket : Z * Z)
    (w0 w1 : World) (base : Calc) (mags : list Z) (snrs : list Q) :
  mag_setup filt n = Ok base ->
  (forall m m' r r',
     m <= m' ->
     perform_calculation (at_magnitude base m) = Ok r ->
     perform_calculation (at_magnitude base m') = Ok r' ->
     (sn (scalar r') <= sn (scalar r))%Q) ->
  compute_mag filt n bracket w0 = (Ok (mags, snrs), w1) ->
  forall (i j : nat) (s s' : Q),
    (i <= j)%nat -> snrs !! i = Some s -> snrs !! j = Some s' ->
    (s' <= s)%Q.
Proof.
  intros Hbase Hanti Hrun i j s s' Hij Hs Hs'.
  destruct (compute_mag_trace filt n bracket w0 base Hbase)
    as (_ & _ & _ & Hout).
  destruct (Hout mags snrs) as [Hmags Hpairs]; [rewrite Hrun; reflexivity|].
  destruct (Forall2_lookup_r _ _ _ _ _ Hpairs Hs) as (m & Hm & r & Hr & ->).
  destruct (Forall2_lookup_r _ _ _ _ _ Hpairs Hs') as (m' & Hm' & r' & Hr' & ->).
  rewrite Hmags in Hm, Hm'.
  apply (Hanti m m' r r'); [|exact Hr | exact Hr'].
  exact (arange_sorted _ _ i j m m' Hij Hm Hm').
Qed.

(** X8. Neither [compute_nexp] nor [compute_mag] prints anything or
    touches the notebook's [nresultant], in any execution. *)
Theorem helpers_are_silent (filt : string) (t mag : Q) (bracket : Q * Q)
    (xtol : Q) (n : Z) (mag_bracket : Z * Z) (w0 : World) :
  (stdout (snd (compute_nexp filt t mag bracket xtol w0)) = stdout w0 /\
   nresultant (snd (compute_nexp filt t mag bracket xtol w0)) =
     nresultant w0) /\
  (stdout (snd (compute_mag filt n mag_bracket w0)) = stdout w0 /\
   nresultant (snd (compute_mag filt n mag_bracket w0)) = nresultant w0).
Proof.
  split; [apply compute_nexp_silent|].
  destruct (mag_setup filt n) as [base | e] eqn:Hbase.
  - destruct (compute_mag_trace filt n mag_bracket w0 base Hbase)
      as (Hn & Hs & _). split; assumption.
  - rewrite compute_mag_run, Hbase. split; reflexivity.
Qed.

(** ** Further behaviour of the saturation back-off loop *)

Lemma test_false_saturated (r : Report) :
  bool_decide (warnings r !! "partial_saturated" = None) &&
  bool_decide (warnings r !! "full_saturated" = None) = false ->
  saturated r.
Proof.
  intros H. apply andb_false_iff in H. destruct H as [H | H].
  - left. apply bool_decide_eq_false in H. exact H.
  - right. apply bool_decide_eq_false in H. exact H.
Qed.

Lemma test_true_unsaturated (r : Report) :
  bool_decide (warnings r !! "partial_saturated" = None) &&
  bool_decide (warnings r !! "full_saturated" = None) = true ->
  unsaturated r.
Proof.
  intros H. apply andb_true_iff in H. destruct H as [H1 H2].
  apply bool_decide_eq_true in H1, H2. split; assumption.
Qed.

(** The loop walks past saturated levels and relays the exception of the
    first evaluation that raises. *)
Lemma backoff_loop_raises (pre : list Z) (n : Z) (post : list Z)
    (w : World) (e : exn) :
  (forall m, m ∈ pre ->
     exists rm, perform_calculation (set_nresultants (m + 1) (calc w)) = Ok rm
                /\ saturated rm) ->
  perform_calculation (set_nresultants (n + 1) (calc w)) = Raise e ->
  backoff_loop (pre ++ n :: post) w =
  (Raise e,
   {| calc := set_nresultants (n + 1) (calc w);
      nresultant := nresultant w;
      stdout := stdout w;
      evals := evals w ++
               ((fun m => set_nresultants (m + 1) (calc w)) <$> pre ++ [n]) |}).
Proof.
  revert w. induction pre as [|m pre IH]; intros w Hpre Hn.
  - cbn [app]. rewrite backoff_loop_step. cbn zeta. rewrite Hn. reflexivity.
  - cbn [app]. rewrite backoff_loop_step. cbn zeta.
    destruct (Hpre m) as (rm & Hrm & Hsat); [left|].
    rewrite Hrm, (saturated_test rm Hsat).
    rewrite (IH _); cbn [calc nresultant stdout evals].
    + rewrite <- app_assoc. reflexivity.
    + intros m' Hm'. apply Hpre. right. exact Hm'.
    + exact Hn.
Qed.

(** The three ways the loop can go, from any notebook whose
    configuration is [c0] up to its number of resultants. *)
Lemma backoff_stops_from (w : World) (c0 : Calc) (v k : Z) (r : Report) :
  calc w = set_nresultants v c0 ->
  1 <= k <= 10 ->
  perform_calculation (set_nresultants k c0) = Ok r ->
  unsaturated r ->
  (forall j, k < j <= 10 ->
     exists rj, perform_calculation (set_nresultants j c0) = Ok rj
                /\ saturated rj) ->
  saturation_backoff w =
  (Ok tt,
   {| calc := set_nresultants k c0;
      nresultant := Some k;
      stdout := stdout w ++ [saturation_message k];
      evals := evals w ++
               ((fun j => set_nresultants j c0) <$> levels_down_to k) |}).
Proof.
  intros Hcalc Hk Hr Hclean Habove.
  unfold saturation_backoff. rewrite (scan_order_split k Hk).
  rewrite (backoff_loop_stops _ (k - 1) _ w r).
  - rewrite (levels_visited k (calc w) Hk), Hcalc.
    replace (k - 1 + 1) with k by lia. reflexivity.
  - intros m Hm. apply elem_of_reverse, elem_of_seqZ in Hm.
    rewrite Hcalc. apply (Habove (m + 1)). lia.
  - replace (k - 1 + 1) with k by lia. rewrite Hcalc. exact Hr.
  - exact Hclean.
Qed.

Lemma backoff_raises_from (w : World) (c0 : Calc) (v k : Z) (e : exn) :
  calc w = set_nresultants v c0 ->
  1 <= k <= 10 ->
  perform_calculation (set_nresultants k c0) = Raise e ->
  (forall j, k < j <= 10 ->
     exists rj, perform_calculation (set_nresultants j c0) = Ok rj
                /\ saturated rj) ->
  saturation_backoff w =
  (Raise e,
   {| calc := set_nresultants k c0;
      nresultant := nresultant w;
      stdout := stdout w;
      evals := evals w ++
               ((fun j => set_nresultants j c0) <$> levels_down_to k) |}).
Proof.
  intros Hcalc Hk Hr Habove.
  unfold saturation_backoff. rewrite (scan_order_split k Hk).
  rewrite (backoff_loop_raises _ (k - 1) _ w e).
  - rewrite (levels_visited k (calc w) Hk), Hcalc.
    replace (k - 1 + 1) with k by lia. reflexivity.
  - intros m Hm. apply elem_of_reverse, elem_of_seqZ in Hm.
    rewrite Hcalc. apply (Habove (m + 1)). lia.
  - replace (k - 1 + 1) with k by lia. rewrite Hcalc. exact Hr.
Qed.

Lemma backoff_exhausts_from (w : World) (c0 : Calc) (v : Z) :
  calc w = set_nresultants v c0 ->
  (forall j, 1 <= j <= 10 ->
     exists rj, perform_calculation (set_nresultants j c0) = Ok rj
                /\ saturated rj) ->
  saturation_backoff w =
  (Ok tt,
   {| calc := set_nresultants 1 c0;
      nresultant := nresultant w;
      stdout := stdout w;
      evals := evals w ++
               ((fun j => set_nresultants j c0) <$> levels_down_to 1) |}).
Proof.
  intros Hcalc Hall. unfold saturation_backoff.
  rewrite backoff_loop_exhausts.
  - rewrite Hcalc. reflexivity.
  - intros m Hm. apply elem_of_reverse, elem_of_seqZ in Hm.
    rewrite Hcalc. apply (Hall (m + 1)). lia.
Qed.

Lemma set_nresultants_id (c : Calc) : c = set_nresultants (nresultants_of c) c.
Proof. destruct c as [[i [n r t]] s]. reflexivity. Qed.

(** Going down from level 10, either every level looked at so far is
    saturated, or there is a first level that is clean or at which the
    engine raises. *)
Lemma first_unsaturated_level (c0 : Calc) (d : nat) :
  (d <= 10)%nat ->
  (forall j, 10 - Z.of_nat d < j <= 10 ->
     exists rj, perform_calculation (set_nresultants j c0) = Ok rj
                /\ saturated rj)
  \/
  (exists k,
     10 - Z.of_nat d < k <= 10 /\
     (forall j, k < j <= 10 ->
        exists rj, perform_calculation (set_nresultants j c0) = Ok rj
                   /\ saturated rj) /\
     ((exists r, perform_calculation (set_nresultants k c0) = Ok r
                 /\ unsaturated r)
      \/ (exists e, perform_calculation (set_nresultants k c0) = Raise e))).
Proof.
  induction d as [|d IH]; intros Hd.
  - left. intros j Hj. lia.
  - destruct IH as [Hall | (k & Hk & Habove & Hat)]; [lia| |].
    + set (k := 10 - Z.of_nat d).
      destruct (perform_calculation (set_nresultants k c0)) as [r | e] eqn:Hr.
      * destruct (bool_decide (warnings r !! "partial_saturated" = None) &&
                  bool_decide (warnings r !! "full_saturated" = None))
          eqn:Htest.
        -- right. exists k. split; [unfold k; lia|].
           split; [intros j Hj; apply Hall; unfold k in Hj; lia|].
           left. exists r. split; [exact Hr|].
           apply test_true_unsaturated. exact Htest.
        -- left. intros j Hj.
           destruct (decide (j = k)) as [-> | Hne].
           ++ exists r. split; [exact Hr|].
              apply test_false_saturated. exact Htest.
           ++ apply Hall. unfold k in Hne. lia.
      * right. exists k. split; [unfold k; lia|].
        split; [intros j Hj; apply Hall; unfold k in Hj; lia|].
        right. exists e. exact Hr.
    + right. exists k. split; [lia|]. split; [exact Habove | exact Hat].
Qed.

(** Every execution of the loop is one of three. *)
Lemma saturation_backoff_cases (w0 : World) :
  (exists k r,
     1 <= k <= 10 /\
     perform_calculation (set_nresultants k (calc w0)) = Ok r /\
     unsaturated r /\
     (forall j, k < j <= 10 ->
        exists rj, perform_calculation (set_nresultants j (calc w0)) = Ok rj
                   /\ saturated rj) /\
     saturation_backoff w0 = (Ok tt, stopped_at w0 k))
  \/
  (exists k e,
     1 <= k <= 10 /\
     perform_calculation (set_nresultants k (calc w0)) = Raise e /\
     (forall j, k < j <= 10 ->
        exists rj, perform_calculation (set_nresultants j (calc w0)) = Ok rj
                   /\ saturated rj) /\
     saturation_backoff w0 = (Raise e, scanned_down_to w0 k))
  \/
  ((forall j, 1 <= j <= 10 ->
      exists rj, perform_calculation (set_nresultants j (calc w0)) = Ok rj
                 /\ saturated rj) /\
   saturation_backoff w0 = (Ok tt, scanned_down_to w0 1)).
Proof.
  destruct (first_unsaturated_level (calc w0) 10 ltac:(lia))
    as [Hall | (k & Hk & Habove & [(r & Hr & Hclean) | (e & He)])].
  - right. right. split; [intros j Hj; apply Hall; lia|].
    apply (backoff_exhausts_from w0 (calc w0) (nresultants_of (calc w0))).
    + apply set_nresultants_id.
    + intros j Hj. apply Hall. lia.
  - left. exists k, r. split; [lia|]. split; [exact Hr|].
    split; [exact Hclean|]. split; [exact Habove|].
    apply (backoff_stops_from w0 (calc w0) (nresultants_of (calc w0)) k r);
      [apply set_nresultants_id | lia | assumption..].
  - right. left. exists k, e. split; [lia|]. split; [exact He|].
    split; [exact Habove|].
    apply (backoff_raises_from w0 (calc w0) (nresultants_of (calc w0)) k e);
      [apply set_nresultants_id | lia | assumption..].
Qed.

(** X16. When the engine raises at level [k], every level above having
    been evaluated with a saturation warning, the loop raises that
    exception after evaluating 10, ..., [k]: nothing is assigned to
    [nresultant], nothing is printed, and the configuration is left at
    [k] resultants. *)
Theorem saturation_backoff_engine_error (w0 : World) (k : Z) (e : exn) :
  1 <= k <= 10 ->
  perform_calculation (set_nresultants k (calc w0)) = Raise e ->
  (forall j, k < j <= 10 ->
     exists rj, perform_calculation (set_nresultants j (calc w0)) = Ok rj
                /\ saturated rj) ->
  saturation_backoff w0 = (Raise e, scanned_down_to w0 k).
Proof.
  intros Hk He Habove.
  apply (backoff_raises_from w0 (calc w0) (nresultants_of (calc w0)) k e);
    [apply set_nresultants_id | assumption..].
Qed.

(** X17. Whenever the loop prints, for any engine: it has ended normally,
    the count it printed and assigned to [nresultant] is between 1 and
    10, the evaluation at that count carried no saturation warning, and
    every higher count up to 10 was evaluated with one. *)
Theorem saturation_backoff_sound (w0 w1 : World) (res : result unit) :
  saturation_backoff w0 = (res, w1) ->
  stdout w1 <> stdout w0 ->
  exists k r,
    1 <= k <= 10 /\
    res = Ok tt /\
    w1 = stopped_at w0 k /\
    perform_calculation (set_nresultants k (calc w0)) = Ok r /\
    unsaturated r /\
    (forall j, k < j <= 10 ->
       exists rj, perform_calculation (set_nresultants j (calc w0)) = Ok rj
                  /\ saturated rj).
Proof.
  intros Hrun Hprinted.
  destruct (saturation_backoff_cases w0)
    as [(k & r & Hk & Hr & Hclean & Habove & Hstop)
       | [(k & e & _ & _ & _ & Hraise) | (_ & Hsilent)]].
  - rewrite Hstop in Hrun. injection Hrun as <- <-.
    exists k, r. repeat (split; [first [assumption | reflexivity]|]).
    exact Habove.
  - rewrite Hraise in Hrun. injection Hrun as <- <-.
    exfalso. apply Hprinted. reflexivity.
  - rewrite Hsilent in Hrun. injection Hrun as <- <-.
    exfalso. apply Hprinted. reflexivity.
Qed.

(** X18. In every execution the loop evaluates level 10 first and then a
    run of consecutive levels going down, ten evaluations at most, all
    on the notebook's configuration with only its number of resultants
    changed; it leaves the configuration at the last level evaluated and
    does not restore the number of resultants it found. *)
Theorem saturation_backoff_evaluations (w0 : World) :
  exists k,
    1 <= k <= 10 /\
    calc (snd (saturation_backoff w0)) = set_nresultants k (calc w0) /\
    evals (snd (saturation_backoff w0)) =
      evals w0 ++
      ((fun j => set_nresultants j (calc w0)) <$> levels_down_to k).
Proof.
  destruct (saturation_backoff_cases w0)
    as [(k & r & Hk & _ & _ & _ & ->)
       | [(k & e & Hk & _ & _ & ->) | (_ & ->)]].
  - exists k. split; [exact Hk|]. split; reflexivity.
  - exists k. split; [exact Hk|]. split; reflexivity.
  - exists 1. split; [lia|]. split; reflexivity.
Qed.

(** X19. Running the loop a second time, for any engine, ends the same
    way: the same result or exception, the same [nresultant], the same
    configuration; the number of resultants the first run left behind
    does not matter. *)
Theorem saturation_backoff_rerun (w0 : World) :
  fst (saturation_backoff (snd (saturation_backoff w0))) =
    fst (saturation_backoff w0) /\
  nresultant (snd (saturation_backoff (snd (saturation_backoff w0)))) =
    nresultant (snd (saturation_backoff w0)) /\
  calc (snd (saturation_backoff (snd (saturation_backoff w0)))) =
    calc (snd (saturation_backoff w0)).
Proof.
  destruct (saturation_backoff_cases w0)
    as [(k & r & Hk & Hr & Hclean & Habove & ->)
       | [(k & e & Hk & He & Habove & ->) | (Hall & ->)]];
    cbn [fst snd].
  - rewrite (backoff_stops_from (stopped_at w0 k) (calc w0) k k r);
      [|reflexivity | assumption..].
    repeat split.
  - rewrite (backoff_raises_from (scanned_down_to w0 k) (calc w0) k k e);
      [|reflexivity | assumption..].
    repeat split.
  - rewrite (backoff_exhausts_from (scanned_down_to w0 1) (calc w0) 1);
      [|reflexivity | assumption].
    repeat split.
Qed.

End Notebook.

(** ** The stand-ins keep the contracts assumed of the external routines *)

Lemma trisect_between (rounds : nat) :
  forall (a b lo hi : Q),
    (lo <= a)%Q -> (a <= b)%Q -> (b <= hi)%Q ->
    forall x, answers (trisect rounds a b) x -> (lo <= x)%Q /\ (x <= hi)%Q.
Proof.
  induction rounds as [|rounds IH]; intros a b lo hi Hlo Hab Hhi x Hx.
  - cbn in Hx. inversion Hx; subst.
    rewrite Qred_correct. split.
    + apply Qle_shift_div_l; [reflexivity|]. lra.
    + apply Qle_shift_div_r; [reflexivity|]. lra.
  - cbn [trisect] in Hx.
    inversion Hx as [|p k fc x' Hx1]; subst.
    inversion Hx1 as [|p' k' fd x'' Hx2]; subst.
    assert (Hthird : (0 <= (b - a) / 3)%Q).
    { apply Qle_shift_div_l; [reflexivity|]. lra. }
    assert (Hthird' : ((b - a) / 3 <= b - a)%Q).
    { apply Qle_shift_div_r; [reflexivity|]. lra. }
    destruct (Qlt_bool fc fd).
    + apply (IH a (Qred (b - (b - a) / 3)) lo hi); try assumption;
        rewrite Qred_correct; lra.
    + apply (IH (Qred (a + (b - a) / 3)) b lo hi); try assumption;
        rewrite Qred_correct; lra.
Qed.

Lemma toy_minimize_scalar_within (rounds : nat) (bracket bounds : Q * Q)
    (xatol : Q) :
  (fst bounds <= snd bounds)%Q ->
  within_bounds bounds (toy_minimize_scalar rounds bracket bounds xatol).
Proof.
  intros Hle x Hx. unfold toy_minimize_scalar in Hx.
  eapply trisect_between; [apply Qle_refl | exact Hle | apply Qle_refl | exact Hx].
Qed.

Lemma trisect_stays_within (rounds : nat) :
  forall (a b lo hi : Q),
    (lo <= a)%Q -> (a <= b)%Q -> (b <= hi)%Q ->
    stays_within (lo, hi) (trisect rounds a b).
Proof.
  induction rounds as [|rounds IH]; intros a b lo hi Hlo Hab Hhi;
    cbn [trisect].
  - constructor; cbn [fst snd]; rewrite Qred_correct.
    + apply Qle_shift_div_l; [reflexivity|]. lra.
    + apply Qle_shift_div_r; [reflexivity|]. lra.
  - assert (Hthird : (0 <= (b - a) / 3)%Q).
    { apply Qle_shift_div_l; [reflexivity|]. lra. }
    assert (Hthird' : ((b - a) / 3 <= b - a)%Q).
    { apply Qle_shift_div_r; [reflexivity|]. lra. }
    constructor; cbn [fst snd]; try (rewrite Qred_correct; lra).
    intros fc.
    constructor; cbn [fst snd]; try (rewrite Qred_correct; lra).
    intros fd.
    destruct (Qlt_bool fc fd); apply IH; try assumption;
      rewrite Qred_correct; lra.
Qed.

Lemma toy_minimize_scalar_stays_within (rounds : nat)
    (bracket bounds : Q * Q) (xatol : Q) :
  (fst bounds <= snd bounds)%Q ->
  stays_within bounds (toy_minimize_scalar rounds bracket bounds xatol).
Proof.
  intros Hle. unfold toy_minimize_scalar. destruct bounds as [lo hi].
  apply trisect_stays_within; [apply Qle_refl | exact Hle | apply Qle_refl].
Qed.

Lemma Qmin_list_elem (x : Q) (xs : list Q) : Qmin_list x xs ∈ x :: xs.
Proof.
  induction xs as [|y xs IH].
  - left.
  - unfold Qmin_list. cbn [fold_right]. fold (Qmin_list x xs).
    destruct (Qle_bool y _).
    + right. left.
    + apply elem_of_cons in IH. apply elem_of_cons.
      destruct IH as [H | H]; [left; exact H | right; right; exact H].
Qed.

Lemma Qmax_list_elem (x : Q) (xs : list Q) : Qmax_list x xs ∈ x :: xs.
Proof.
  induction xs as [|y xs IH].
  - left.
  - unfold Qmax_list. cbn [fold_right]. fold (Qmax_list x xs).
    destruct (Qle_bool _ y).
    + right. left.
    + apply elem_of_cons in IH. apply elem_of_cons.
      destruct IH as [H | H]; [left; exact H | right; right; exact H].
Qed.

Lemma toy_interp1d_raises_out_of_bounds : raises_out_of_bounds toy_interp1d.
Proof.
  intros xs ys f t Hf Hout. unfold toy_interp1d in Hf.
  destruct (negb _); [discriminate|].
  destruct xs as [|x0 rest]; [discriminate|].
  injection Hf as <-.
  destruct Hout as [Hlow | Hhigh].
  - pose proof (Hlow _ (Qmin_list_elem x0 rest)) as H.
    apply Qlt_bool_iff in H. rewrite H. eauto.
  - destruct (Qlt_bool t (Qmin_list x0 rest)); [eauto|].
    pose proof (Hhigh _ (Qmax_list_elem x0 rest)) as H.
    apply Qlt_bool_iff in H. rewrite H. eauto.
Qed.

Lemma linear_snr_monotone (slope : Z) :
  0 <= slope -> monotone_in_nexp (toy_engine (linear_snr slope)).
Proof.
  intros Hs c a b ra rb Hab [= <-] [= <-]. cbn.
  unfold linear_snr. rewrite <- Zle_Qle. nia.
Qed.

(** ** The code on concrete inputs *)

(** C1 (the code at the failing input). An engine whose SNR is 5 at every
    exposure count, target SNR 5, default bracket and tolerance: the SNR
    at one exposure equals the target, yet [compute_nexp] does not take
    the short circuit; it evaluates the engine 52 times and returns 999
    exposures. *)
Theorem compute_nexp_tie_runs_search :
  let engine := toy_engine (constant_snr 5) in
  let run :=
    compute_nexp toy_default_calc engine (toy_minimize_scalar 25)
      "f129" 5 toy_mag default_nexp_bracket default_xtol toy_world in
  (exists base r1,
     nexp_setup toy_default_calc "f129" toy_mag = Ok base /\
     engine base = Ok r1 /\ (sn (scalar r1) == 5)%Q) /\
  (exists r exptime, fst run = Ok (999, r, exptime)) /\
  length (evals (snd run)) = 52%nat.
Proof.
  cbv zeta. split; [|split].
  - eexists _, _. split; [reflexivity|]. split; reflexivity.
  - eexists _, _. vm_compute. reflexivity.
  - vm_compute. reflexivity.
Qed.

(** C2 (the code at the failing input). An engine whose SNR is three
    times the exposure count, target SNR 10: the search settles on 3
    exposures, whose SNR 9 falls short, and [compute_nexp] returns 4
    exposures with the record and the exposure time of the evaluation at
    3 exposures; the evaluation at 4 exposures is another record, with
    another exposure time. *)
Theorem compute_nexp_increment_stale_report :
  let engine := toy_engine (linear_snr 3) in
  let run :=
    compute_nexp toy_default_calc engine (toy_minimize_scalar 25)
      "f129" 10 toy_mag default_nexp_bracket default_xtol toy_world in
  exists base r3 r4,
    nexp_setup toy_default_calc "f129" toy_mag = Ok base /\
    engine (set_nexp 3 base) = Ok r3 /\
    engine (set_nexp 4 base) = Ok r4 /\
    fst run = Ok (4, r3, total_exposure_time (scalar r3)) /\
    r3 <> r4 /\
    ~ (total_exposure_time (scalar r3) == total_exposure_time (scalar r4))%Q.
Proof.
  cbv zeta. eexists _, _, _.
  split; [reflexivity|]. split; [reflexivity|]. split; [reflexivity|].
  split; [vm_compute; reflexivity|].
  split; [intros H; discriminate H | intros H; discriminate H].
Qed.

Lemma compute_nexp_reaches_target_witness :
  let engine := toy_engine (linear_snr 3) in
  let run :=
    compute_nexp toy_default_calc engine (toy_minimize_scalar 25)
      "f129" 9 toy_mag default_nexp_bracket default_xtol toy_world in
  exists r,
    fst run = Ok (3, r, 300%Q) /\
    engine (set_nexp 3 (calc (snd run))) = Ok r /\
    (9 <= sn (scalar r))%Q.
Proof.
  cbv zeta.
  destruct (compute_nexp_reaches_target
              toy_default_calc (toy_engine (linear_snr 3))
              (toy_minimize_scalar 25)
              "f129" 9 toy_mag default_nexp_bracket default_xtol toy_world
              (snd (compute_nexp toy_default_calc (toy_engine (linear_snr 3))
                      (toy_minimize_scalar 25) "f129" 9 toy_mag
                      default_nexp_bracket default_xtol toy_world))
              3
              {| scalar := {| sn := 9; total_exposure_time := 300;
                              sat_nresultants := 10 |};
                 warnings := ∅ |}
              300%Q
              (linear_snr_monotone 3 ltac:(lia))
              ltac:(vm_compute; reflexivity))
    as [[Heval Hreach] | (Hn & _)].
  - eexists. split; [vm_compute; reflexivity|].
    split; [exact Heval | exact Hreach].
  - exfalso. revert Hn. vm_compute. discriminate.
Defined.

(** The exception C3 allows for does occur: with an SNR equal to the
    exposure count and a target of 2000, out of reach within the default
    bracket, the incremented count 1000 still falls short. *)
Example compute_nexp_increment_undershoots :
  let engine := toy_engine (linear_snr 1) in
  let run :=
    compute_nexp toy_default_calc engine (toy_minimize_scalar 25)
      "f129" 2000 toy_mag default_nexp_bracket default_xtol toy_world in
  monotone_in_nexp engine /\
  exists r r' exptime,
    fst run = Ok (1000, r, exptime) /\
    engine (set_nexp 1000 (calc (snd run))) = Ok r' /\
    (sn (scalar r') < 2000)%Q.
Proof.
  cbv zeta. split; [apply linear_snr_monotone; lia|].
  eexists _, _, _. split; [vm_compute; reflexivity|].
  split; [vm_compute; reflexivity | reflexivity].
Qed.

(** C5 (counterexample). With an SNR equal to the exposure count, the
    target 2000 exceeds every SNR achievable with 1 to 1000 exposures;
    [compute_nexp] raises nothing and returns 1000 exposures, with the
    record of 999 exposures. *)
Lemma compute_nexp_infeasible_target_returns :
  let engine := toy_engine (linear_snr 1) in
  let run :=
    compute_nexp toy_default_calc engine (toy_minimize_scalar 25)
      "f129" 2000 toy_mag default_nexp_bracket default_xtol toy_world in
  (forall k r base,
     1 <= k <= 1000 ->
     nexp_setup toy_default_calc "f129" toy_mag = Ok base ->
     engine (set_nexp k base) = Ok r -> (sn (scalar r) < 2000)%Q) /\
  fst run =
    Ok (1000,
        {| scalar := {| sn := 999; total_exposure_time := 99900;
                        sat_nresultants := 10 |};
           warnings := ∅ |},
        99900%Q) /\
  forall e, fst run <> Raise e.
Proof.
  cbv zeta. split; [|split].
  - intros k r base Hk [= <-] [= <-]. cbn. unfold linear_snr.
    change 2000%Q with (inject_Z 2000). rewrite <- Zlt_Qlt. lia.
  - vm_compute. reflexivity.
  - intros e. vm_compute. discriminate.
Qed.

Lemma compute_nexp_infeasible_target_witness :
  let engine := toy_engine (linear_snr 1) in
  exists x r exptime w1,
    compute_nexp toy_default_calc engine (toy_minimize_scalar 25)
      "f129" 2000 toy_mag default_nexp_bracket default_xtol toy_world =
      (Ok (py_int x + 1, r, exptime), w1) /\
    answers (toy_minimize_scalar 25 default_nexp_bracket default_nexp_bracket
               default_xtol) x /\
    (fst default_nexp_bracket <= x)%Q /\ (x <= snd default_nexp_bracket)%Q.
Proof.
  cbv zeta.
  apply (compute_nexp_infeasible_target
           toy_default_calc (toy_engine (linear_snr 1))
           (toy_minimize_scalar 25)
           "f129" 2000 toy_mag default_nexp_bracket default_xtol toy_world
           _ eq_refl).
  - eexists. split; [reflexivity|]. vm_compute. discriminate.
  - intros x Hlo Hhi. eexists. split; [reflexivity|].
    cbn -[py_int deviation_bound Qle Qlt Qminus inject_Z Z.mul].
    unfold linear_snr.
    change (fst default_nexp_bracket) with (inject_Z 1) in Hlo.
    assert (H0 : (0 <= x)%Q) by (change (inject_Z 1) with 1%Q in Hlo; lra).
    pose proof (py_int_lower x 1 ltac:(lia) Hlo) as H1.
    pose proof (py_int_upper x _ H0 Hhi) as H2.
    change (snd default_nexp_bracket) with (inject_Z 1000) in H2.
    rewrite <- Zle_Qle in H2.
    assert (Hdev : (2000 <= deviation_bound)%Q) by (vm_compute; discriminate).
    assert (Hpos : (0 <= inject_Z (1 * py_int x))%Q).
    { change 0%Q with (inject_Z 0). rewrite <- Zle_Qle. lia. }
    split; [lra|].
    change 2000%Q with (inject_Z 2000). rewrite <- Zlt_Qlt. lia.
  - apply toy_minimize_scalar_stays_within. cbn. lra.
Defined.

(** C10 (counterexample). With the bracket (0, 1) and an SNR that equals
    the target at every count, the minimizer answers below 1 and
    [compute_nexp] succeeds with a count of 0 exposures. *)
Lemma compute_nexp_returns_zero :
  ~ (forall n r exptime w1,
       compute_nexp toy_default_calc (toy_engine (constant_snr 5))
         (toy_minimize_scalar 6)
         "f129" 5 toy_mag (0, 1)%Q default_xtol toy_world =
         (Ok (n, r, exptime), w1) ->
       1 <= n).
Proof.
  intros H.
  specialize (H 0 _ _ _ ltac:(vm_compute; reflexivity)). lia.
Qed.

Lemma compute_nexp_count_bounds_witness :
  let engine := toy_engine (linear_snr 3) in
  exists base r1,
    nexp_setup toy_default_calc "f129" toy_mag = Ok base /\
    engine base = Ok r1 /\
    1 <= 4 /\
    (if Qgt_bool (sn (scalar r1)) 10 then 4 = 1
     else (inject_Z 4 <= snd default_nexp_bracket + 1)%Q).
Proof.
  cbv zeta.
  refine (compute_nexp_count_bounds
            toy_default_calc (toy_engine (linear_snr 3))
            (toy_minimize_scalar 25)
            "f129" 10 toy_mag default_nexp_bracket default_xtol toy_world
            (snd (compute_nexp toy_default_calc (toy_engine (linear_snr 3))
                    (toy_minimize_scalar 25) "f129" 10 toy_mag
                    default_nexp_bracket default_xtol toy_world))
            4
            {| scalar := {| sn := 9; total_exposure_time := 300;
                            sat_nresultants := 10 |};
               warnings := ∅ |}
            300%Q _ _ _).
  - apply toy_minimize_scalar_within. cbn. lra.
  - cbn. lra.
  - vm_compute. reflexivity.
Defined.

Lemma saturation_backoff_finds_largest_witness :
  saturation_backoff (saturating_engine 5) toy_world =
  (Ok tt,
   {| calc := set_nresultants 5 (calc toy_world);
      nresultant := Some 5;
      stdout := ["No saturation happens with resultant 5"];
      evals := (fun j => set_nresultants j (calc toy_world)) <$> [10; 9; 8; 7; 6; 5] |}).
Proof.
  refine (saturation_backoff_finds_largest (saturating_engine 5) toy_world 5
            _ _ eq_refl _ _).
  - lia.
  - split; reflexivity.
  - intros j Hj.
    assert (Hcases : j = 6 \/ j = 7 \/ j = 8 \/ j = 9 \/ j = 10) by lia.
    destruct Hcases as [-> | [-> | [-> | [-> | ->]]]];
      (eexists; split; [reflexivity | left; vm_compute; discriminate]).
Defined.

Lemma saturation_backoff_silent_witness :
  saturation_backoff (saturating_engine 0) toy_world =
  (Ok tt,
   {| calc := set_nresultants 1 (calc toy_world);
      nresultant := None;
      stdout := [];
      evals := (fun j => set_nresultants j (calc toy_world)) <$>
               [10; 9; 8; 7; 6; 5; 4; 3; 2; 1] |}).
Proof.
  refine (saturation_backoff_silent (saturating_engine 0) toy_world _).
  intros j Hj.
  destruct (level_cases j Hj)
    as [-> | [-> | [-> | [-> | [-> | [-> | [-> | [-> | [-> | ->]]]]]]]]];
    (eexists; split; [reflexivity | left; vm_compute; discriminate]).
Defined.



(** The default sweep on the stand-in engine. *)
Example compute_mag_default_sweep :
  fst (compute_mag toy_default_calc mag_engine "f129" 10 default_mag_bracket
         toy_world) =
  Ok ([18; 19; 20; 21; 22; 23; 24; 25; 26; 27; 28; 29; 30],
      [22; 21; 20; 19; 18; 17; 16; 15; 14; 13; 12; 11; 10]%Q).
Proof. vm_compute. reflexivity. Qed.

Lemma mag2sn_out_of_domain_witness :
  exists msg,
    _mag2sn_ toy_interp1d [18; 19; 20] [22; 21; 20]%Q 5 =
    Raise (ValueError msg).
Proof.
  refine (proj2 (mag2sn_out_of_domain toy_interp1d [18; 19; 20]
                   [22; 21; 20]%Q 5 toy_interp1d_raises_out_of_bounds _)
                _ eq_refl).
  left. intros x Hx.
  repeat (apply elem_of_cons in Hx; destruct Hx as [-> | Hx]; [reflexivity|]).
  inversion Hx.
Defined.

(** Within the range of the samples the stand-in interpolates. *)
Example mag2sn_in_range :
  _mag2sn_ toy_interp1d [18; 19; 20] [22; 21; 20]%Q (43 # 2) =
  Ok (37 # 2)%Q.
Proof. vm_compute. reflexivity. Qed.

(** ** The further properties on concrete inputs *)

Lemma compute_nexp_short_circuit_witness :
  exists base r1,
    nexp_setup toy_default_calc "f129" toy_mag = Ok base /\
    compute_nexp toy_default_calc (toy_engine (linear_snr 3))
      (toy_minimize_scalar 25)
      "f129" 2 toy_mag default_nexp_bracket default_xtol toy_world =
    (Ok (1, r1, total_exposure_time (scalar r1)),
     {| calc := base; nresultant := None; stdout := [];
        evals := [base] |}).
Proof.
  eexists _, _. split; [reflexivity|].
  apply (compute_nexp_short_circuit toy_default_calc
           (toy_engine (linear_snr 3)) (toy_minimize_scalar 25)
           "f129" 2 toy_mag default_nexp_bracket default_xtol toy_world).
  - reflexivity.
  - reflexivity.
  - reflexivity.
Defined.

Lemma compute_nexp_tie_searches_witness :
  let run :=
    compute_nexp toy_default_calc (toy_engine (constant_snr 5))
      (toy_minimize_scalar 25)
      "f129" 5 toy_mag default_nexp_bracket default_xtol toy_world in
  exists base c new,
    nexp_setup toy_default_calc "f129" toy_mag = Ok base /\
    evals (snd run) = evals toy_world ++ base :: new ++ [c].
Proof.
  cbv zeta. eexists. 
  destruct (compute_nexp_tie_searches toy_default_calc
              (toy_engine (constant_snr 5)) (toy_minimize_scalar 25)
              "f129" 5 toy_mag default_nexp_bracket default_xtol toy_world
              _ _ _ _ eq_refl eq_refl ltac:(reflexivity)
              (surjective_pairing _))
    as (c & new & Hev).
  - intros e. vm_compute. discriminate.
  - exists c, new. split; [reflexivity | exact Hev].
Defined.

Lemma compute_nexp_returned_record_witness :
  let engine := toy_engine (linear_snr 3) in
  let run :=
    compute_nexp toy_default_calc engine (toy_minimize_scalar 25)
      "f129" 10 toy_mag default_nexp_bracket default_xtol toy_world in
  exists r,
    fst run = Ok (4, r, 300%Q) /\
    300%Q = total_exposure_time (scalar r) /\
    engine (calc (snd run)) = Ok r /\
    (4 = nexp_of (calc (snd run)) \/ 4 = nexp_of (calc (snd run)) + 1).
Proof.
  cbv zeta. eexists. split; [vm_compute; reflexivity|].
  apply (compute_nexp_returned_record toy_default_calc
           (toy_engine (linear_snr 3)) (toy_minimize_scalar 25)
           "f129" 10 toy_mag default_nexp_bracket default_xtol toy_world).
  vm_compute. reflexivity.
Defined.

Lemma compute_nexp_empty_scene_witness :
  compute_nexp toy_empty_calc (toy_engine (linear_snr 3))
    (toy_minimize_scalar 25)
    "f129" 10 toy_mag default_nexp_bracket default_xtol toy_world =
  (Raise IndexError,
   {| calc := toy_empty_calc "roman" "wfi" "imaging";
      nresultant := None; stdout := []; evals := [] |}).
Proof.
  apply (compute_nexp_empty_scene toy_empty_calc (toy_engine (linear_snr 3))
           (toy_minimize_scalar 25)
           "f129" 10 toy_mag default_nexp_bracket default_xtol toy_world).
  reflexivity.
Defined.

Lemma compute_nexp_raise_causes_witness :
  let engine := toy_engine (linear_snr 3) in
  let t := inject_Z (2 ^ 600) in
  let run :=
    compute_nexp toy_default_calc engine (toy_minimize_scalar 25)
      "f129" t toy_mag default_nexp_bracket default_xtol toy_world in
  let e := OverflowError "(34, 'Numerical result out of range')" in
  fst run = Raise e /\
  ((e = IndexError /\
    scene (toy_default_calc "roman" "wfi" "imaging") = [] /\
    evals (snd run) = evals toy_world)
   \/
   (exists new c,
      evals (snd run) = evals toy_world ++ new ++ [c] /\
      (engine c = Raise e \/
       exists r, engine c = Ok r /\
                 float_pow2 (t - sn (scalar r)) = Raise e))
   \/
   fails_with (toy_minimize_scalar 25 default_nexp_bracket
                 default_nexp_bracket default_xtol) e).
Proof.
  cbv zeta. split; [vm_compute; reflexivity|].
  apply (compute_nexp_raise_causes toy_default_calc
           (toy_engine (linear_snr 3)) (toy_minimize_scalar 25)
           "f129" (inject_Z (2 ^ 600)) toy_mag default_nexp_bracket
           default_xtol toy_world).
  vm_compute. reflexivity.
Defined.

Lemma compute_nexp_succeeds_witness :
  exists n r exptime w1,
    compute_nexp toy_default_calc (toy_engine (linear_snr 3))
      (toy_minimize_scalar 25)
      "f129" 10 toy_mag default_nexp_bracket default_xtol toy_world =
    (Ok (n, r, exptime), w1).
Proof.
  apply (compute_nexp_succeeds toy_default_calc (toy_engine (linear_snr 3))
           (toy_minimize_scalar 25)
           "f129" 10 toy_mag default_nexp_bracket default_xtol toy_world
           _ eq_refl).
  - eexists. reflexivity.
  - intros x Hlo Hhi. eexists. split; [reflexivity|].
    cbn -[py_int deviation_bound Qle Qabs Qminus inject_Z Z.mul].
    unfold linear_snr.
    change (fst default_nexp_bracket) with (inject_Z 1) in Hlo.
    assert (H0 : (0 <= x)%Q) by (change (inject_Z 1) with 1%Q in Hlo; lra).
    pose proof (py_int_lower x 1 ltac:(lia) Hlo) as H1.
    pose proof (py_int_upper x _ H0 Hhi) as H2.
    change (snd default_nexp_bracket) with (inject_Z 1000) in H2.
    rewrite <- Zle_Qle in H2.
    assert (Hdev : (3000 <= deviation_bound)%Q) by (vm_compute; discriminate).
    assert (Hpos : (0 <= inject_Z (3 * py_int x))%Q).
    { change 0%Q with (inject_Z 0). rewrite <- Zle_Qle. lia. }
    assert (Htop : (inject_Z (3 * py_int x) <= 3000)%Q).
    { change 3000%Q with (inject_Z 3000). rewrite <- Zle_Qle. lia. }
    apply Qabs_Qle_condition. split; lra.
  - apply toy_minimize_scalar_stays_within. cbn. lra.
Defined.

Lemma nexp2sn_objective_witness :
  let engine := toy_engine (linear_snr 3) in
  exists etc,
    engine (set_nexp 3 (calc toy_world)) = Ok etc /\
    calc (snd (_nexp2sn_ engine (7 # 2) 10 toy_world)) =
      set_nexp 3 (calc toy_world) /\
    evals (snd (_nexp2sn_ engine (7 # 2) 10 toy_world)) =
      evals toy_world ++ [set_nexp 3 (calc toy_world)] /\
    (0 <= 1)%Q /\
    ((sn (scalar etc) == 10)%Q -> 1%Q = 0%Q).
Proof.
  cbv zeta.
  apply (nexp2sn_objective (toy_engine (linear_snr 3)) (7 # 2) 10 1 toy_world
           (snd (_nexp2sn_ (toy_engine (linear_snr 3)) (7 # 2) 10 toy_world))).
  vm_compute. reflexivity.
Defined.

Lemma nexp2sn_piecewise_constant_witness :
  _nexp2sn_ (toy_engine (linear_snr 3)) (16 # 5) 10 toy_world =
  _nexp2sn_ (toy_engine (linear_snr 3)) (39 # 10) 10 toy_world.
Proof.
  apply (nexp2sn_piecewise_constant (toy_engine (linear_snr 3))
           (16 # 5) (39 # 10) 10 toy_world).
  reflexivity.
Defined.

Lemma compute_mag_empty_bracket_witness :
  exists base,
    mag_setup toy_default_calc "f129" 10 = Ok base /\
    compute_mag toy_default_calc mag_engine "f129" 10 (30, 18) toy_world =
    (Ok ([], []),
     {| calc := base; nresultant := None; stdout := []; evals := [] |}).
Proof.
  eexists. split; [reflexivity|].
  apply (compute_mag_empty_bracket toy_default_calc mag_engine "f129" 10
           30 18 toy_world).
  - lia.
  - reflexivity.
Defined.


Lemma compute_mag_empty_scene_witness :
  compute_mag toy_empty_calc mag_engine "f129" 10 default_mag_bracket
    toy_world =
  (Raise IndexError,
   {| calc := toy_empty_calc "roman" "wfi" "imaging";
      nresultant := None; stdout := []; evals := [] |}).
Proof.
  apply (compute_mag_empty_scene toy_empty_calc mag_engine "f129" 10
           default_mag_bracket toy_world).
  reflexivity.
Defined.

Lemma mag_engine_antitone (base : Calc) (m m' : Z) (r r' : Report) :
  mag_setup toy_default_calc "f129" 10 = Ok base ->
  m <= m' ->
  mag_engine (at_magnitude base m) = Ok r ->
  mag_engine (at_magnitude base m') = Ok r' ->
  (sn (scalar r') <= sn (scalar r))%Q.
Proof.
  intros [= <-] Hm [= <-] [= <-]. cbn.
  rewrite Zle_Qle in Hm. lra.
Qed.

Lemma compute_mag_snrs_sorted_witness :
  exists snrs,
    fst (compute_mag toy_default_calc mag_engine "f129" 10
           default_mag_bracket toy_world) =
      Ok (seqZ 18 13, snrs) /\
    snrs !! 0%nat = Some 22%Q /\
    snrs !! 12%nat = Some 10%Q /\
    (10 <= 22)%Q.
Proof.
  eexists. split; [vm_compute; reflexivity|].
  split; [reflexivity|]. split; [reflexivity|].
  refine (compute_mag_snrs_sorted toy_default_calc mag_engine "f129" 10
            default_mag_bracket toy_world
            (snd (compute_mag toy_default_calc mag_engine "f129" 10
                    default_mag_bracket toy_world))
            _ _ _ eq_refl _ _ 0%nat 12%nat 22%Q 10%Q _ _ _).
  - intros m m' r r' Hm Hr Hr'.
    exact (mag_engine_antitone _ m m' r r' eq_refl Hm Hr Hr').
  - vm_compute. reflexivity.
  - lia.
  - reflexivity.
  - reflexivity.
Defined.

Lemma saturation_backoff_engine_error_witness :
  saturation_backoff (flaky_saturating_engine 5 7) toy_world =
  (Raise (EngineError "calculation failed"), scanned_down_to toy_world 7).
Proof.
  apply (saturation_backoff_engine_error (flaky_saturating_engine 5 7)
           toy_world 7).
  - lia.
  - reflexivity.
  - intros j Hj.
    assert (Hcases : j = 8 \/ j = 9 \/ j = 10) by lia.
    destruct Hcases as [-> | [-> | ->]];
      (eexists; split; [reflexivity | left; vm_compute; discriminate]).
Defined.

Lemma saturation_backoff_sound_witness :
  let run := saturation_backoff (saturating_engine 5) toy_world in
  stdout (snd run) = ["No saturation happens with resultant 5"] /\
  exists k r,
    1 <= k <= 10 /\
    fst run = Ok tt /\
    snd run = stopped_at toy_world k /\
    saturating_engine 5 (set_nresultants k (calc toy_world)) = Ok r /\
    unsaturated r /\
    (forall j, k < j <= 10 ->
       exists rj,
         saturating_engine 5 (set_nresultants j (calc toy_world)) = Ok rj
         /\ saturated rj).
Proof.
  cbv zeta. split; [vm_compute; reflexivity|].
  apply (saturation_backoff_sound (saturating_engine 5) toy_world).
  - apply surjective_pairing.
  - vm_compute. discriminate.
Defined.
